(** * Adapter host: redaction filter, event log and run lifecycle

    A shallow embedding of [app/redaction.py], [app/models.py],
    [app/store.py], [app/emitter.py] and [app/routes/runs.py], followed by
    the properties of the run lifecycle coordinator proved over it. *)

From Stdlib Require Import ZArith NArith String Ascii Lia Sorted.
From stdpp Require Import base option list gmap.

Local Open Scope nat_scope.

(** ** Python strings

    A Python [str] is a sequence of Unicode code points; a code point is
    modelled as its number. *)

Abbreviation char := N (only parsing).
Abbreviation str := (list N) (only parsing).

Definition codes (s : string) : str := map N_of_ascii (list_ascii_of_string s).

(** [needle in haystack] on Python strings. *)
Definition infix (needle hay : str) : Prop :=
  ∃ pre post, hay = pre ++ needle ++ post.

(** ** The fragment of Python's [re] used by [_PATTERNS]

    Each of the six patterns is a sequence of single-character matchers,
    each under a greedy quantifier ([x], [x?], [x*], [x+], [x{m,}],
    [x{m}]).  The two capturing groups of the last pattern take no part in
    matching and the replacement string refers to no group, so groups are
    not represented. *)
Module Re.

Inductive set_item :=
| Chr (c : char)              (* a character of the set *)
| Range (a b : char)          (* a-b *)
| Space.                      (* \s *)

Inductive single :=
| Lit (c : char)              (* a literal character *)
| OneOf (items : list set_item)   (* [...] *)
| NoneOf (items : list set_item). (* [^...] *)

Record piece := Piece { what : single; lo : nat; hi : option nat }.

Record pattern := Pattern { pieces : list piece; IGNORECASE : bool }.

(** [\s] on [str] patterns: the Unicode white space of CPython. *)
Definition is_space (x : char) : bool :=
  ((9 <=? x) && (x <=? 13) || (28 <=? x) && (x <=? 32)
   || (x =? 133) || (x =? 160) || (x =? 5760)
   || (8192 <=? x) && (x <=? 8202)
   || (x =? 8232) || (x =? 8233) || (x =? 8239) || (x =? 8287)
   || (x =? 12288))%N.

Definition item_has (i : set_item) (x : char) : bool :=
  match i with
  | Chr c => (x =? c)%N
  | Range a b => ((a <=? x) && (x <=? b))%N
  | Space => is_space x
  end.

(** Case-insensitive matching compares lower-cased characters and adds
    the few characters the [sre] compiler treats as equivalent to an
    ASCII letter.  The patterns hold ASCII characters only, so only the
    characters that fold to an ASCII letter matter: A-Z, U+0130 and
    U+0131 (dotted and dotless i), U+017F (long s), U+212A (Kelvin). *)
Definition lower (x : char) : char :=
  (if (65 <=? x) && (x <=? 90) then x + 32
   else if (x =? 304) || (x =? 305) then 105
   else if x =? 383 then 115
   else if x =? 8490 then 107
   else x)%N.

Definition upper (x : char) : char :=
  (if (97 <=? x) && (x <=? 122) then x - 32 else x)%N.

Definition variants (ic : bool) (x : char) : list char :=
  if ic then [x; lower x; upper (lower x)] else [x].

Definition in_set (ic : bool) (items : list set_item) (x : char) : bool :=
  existsb (λ y, existsb (λ i, item_has i y) items) (variants ic x).

Definition accepts (ic : bool) (w : single) (x : char) : bool :=
  match w with
  | Lit c => in_set ic [Chr c] x
  | OneOf items => in_set ic items x
  | NoneOf items => negb (in_set ic items x)
  end.

(** A compiled pattern: character classes as predicates. *)
Record atom := Atom { cls : char → bool; least : nat; most : option nat }.

Definition compile (p : pattern) : list atom :=
  map (λ q, Atom (accepts (IGNORECASE p) (what q)) (lo q) (hi q)) (pieces p).

(** Length of the longest run of characters of a class at the start of
    a string. *)
Fixpoint span (c : char → bool) (s : str) : nat :=
  match s with
  | x :: s' => if c x then S (span c s') else 0
  | [] => 0
  end.

Definition cap (m : option nat) (n : nat) : nat :=
  match m with Some h => Nat.min h n | None => n end.

(** A greedy quantifier takes as many characters as it can and gives
    them back one at a time while the rest of the pattern fails. *)
Fixpoint backtrack (rest : str → option nat) (least : nat) (s : str)
    (k : nat) : option nat :=
  if k <? least then None
  else match rest (drop k s) with
       | Some n => Some (k + n)
       | None => match k with
                 | 0 => None
                 | S k' => backtrack rest least s k'
                 end
       end.

(** [match_here r s]: the length of the match of [r] at the start of
    [s], if there is one ([Pattern.match]). *)
Fixpoint match_here (r : list atom) (s : str) : option nat :=
  match r with
  | [] => Some 0
  | a :: r' =>
      backtrack (match_here r') (least a) s (cap (most a) (span (cls a) s))
  end.

(** [Pattern.sub(repl, s)] for a replacement without group references:
    the string is scanned from the left, every match is replaced and the
    scan goes on behind it.  [skip] counts the characters of the current
    match that are still to be dropped.  An empty match inserts the
    replacement in front of the character it stands at. *)
Fixpoint sub_go (r : list atom) (repl : str) (skip : nat) (s : str) : str :=
  match s with
  | [] =>
      match skip, match_here r [] with
      | 0, Some _ => repl
      | _, _ => []
      end
  | x :: s' =>
      match skip with
      | S k => sub_go r repl k s'
      | 0 =>
          match match_here r s with
          | Some (S n) => repl ++ sub_go r repl n s'
          | Some 0 => repl ++ x :: sub_go r repl 0 s'
          | None => x :: sub_go r repl 0 s'
          end
      end
  end.

Definition sub (p : pattern) (repl : str) (s : str) : str :=
  sub_go (compile p) repl 0 s.

(** Pattern syntax helpers. *)
Definition one (w : single) : piece := Piece w 1 (Some 1).
Definition opt (w : single) : piece := Piece w 0 (Some 1).
Definition star (w : single) : piece := Piece w 0 None.
Definition plus (w : single) : piece := Piece w 1 None.
Definition at_least (n : nat) (w : single) : piece := Piece w n None.
Definition exactly (n : nat) (w : single) : piece := Piece w n (Some n).
Definition lits (s : string) : list piece := map (λ c, one (Lit c)) (codes s).

(** The strings a compiled pattern matches in full. *)
Inductive lang : list atom → str → Prop :=
| lang_nil : lang [] []
| lang_cons a r m1 m2 :
    Forall (λ x, cls a x = true) m1 →
    least a ≤ length m1 →
    (∀ h, most a = Some h → length m1 ≤ h) →
    lang r m2 →
    lang (a :: r) (m1 ++ m2).

(** No match of the pattern starts anywhere in the string. *)
Definition clean (r : list atom) (s : str) : Prop :=
  ∀ j, match_here r (drop j s) = None.

(** The length of the shortest string of the language. *)
Fixpoint min_length (r : list atom) : nat :=
  match r with
  | [] => 0
  | a :: r' => least a + min_length r'
  end.

(** A pattern [q] stays apart from a replacement when no match of [q]
    starts inside the replacement ([inside_fails]) and no string of its
    language holds a given character ([avoids]). *)
Definition inside_fails (q : list atom) (repl : str) : Prop :=
  ∀ e w, e ≠ [] → suffix e repl → match_here q (e ++ w) = None.

Definition avoids (q : list atom) (c : char) : Prop :=
  Forall (λ a, cls a c = false) q.

End Re.

(** ** [app/redaction.py] *)

Definition ch (a : ascii) : char := N_of_ascii a.

Definition alnum : Re.single :=
  Re.OneOf [Re.Range (ch "A") (ch "Z"); Re.Range (ch "a") (ch "z");
            Re.Range (ch "0") (ch "9")].

(** The entries of [_PATTERNS], in order. *)

(* sk-[A-Za-z0-9]{20,} *)
Definition pat_openai : Re.pattern :=
  Re.Pattern (Re.lits "sk-" ++ [Re.at_least 20 alnum]) false.

(* ghp_[A-Za-z0-9]{20,} *)
Definition pat_ghp : Re.pattern :=
  Re.Pattern (Re.lits "ghp_" ++ [Re.at_least 20 alnum]) false.

(* github_pat_[A-Za-z0-9]{20,} *)
Definition pat_github_pat : Re.pattern :=
  Re.Pattern (Re.lits "github_pat_" ++ [Re.at_least 20 alnum]) false.

(* Bearer\s+[A-Za-z0-9\-\._~\+/]+=*   with re.IGNORECASE *)
Definition pat_bearer : Re.pattern :=
  Re.Pattern
    (Re.lits "Bearer"
     ++ [Re.plus (Re.OneOf [Re.Space]);
         Re.plus (Re.OneOf [Re.Range (ch "A") (ch "Z");
                            Re.Range (ch "a") (ch "z");
                            Re.Range (ch "0") (ch "9");
                            Re.Chr (ch "-"); Re.Chr (ch "."); Re.Chr (ch "_");
                            Re.Chr (ch "~"); Re.Chr (ch "+"); Re.Chr (ch "/")]);
         Re.star (Re.Lit (ch "="))])
    true.

(* AKIA[0-9A-Z]{16} *)
Definition pat_aws : Re.pattern :=
  Re.Pattern
    (Re.lits "AKIA"
     ++ [Re.exactly 16 (Re.OneOf [Re.Range (ch "0") (ch "9");
                                  Re.Range (ch "A") (ch "Z")])])
    false.

(* group 1: api[_-]?key\s*=\s*   group 2: [^\s DQUOTE SQUOTE]+
   with re.IGNORECASE; DQUOTE is code point 34, SQUOTE code point 39 *)
Definition api_key_prefix : list Re.piece :=
  Re.lits "api" ++ [Re.opt (Re.OneOf [Re.Chr (ch "_"); Re.Chr (ch "-")])]
  ++ Re.lits "key"
  ++ [Re.star (Re.OneOf [Re.Space]); Re.one (Re.Lit (ch "="));
      Re.star (Re.OneOf [Re.Space])].

Definition api_key_value : Re.single :=
  Re.NoneOf [Re.Space; Re.Chr 34%N; Re.Chr 39%N].

Definition pat_api_key : Re.pattern :=
  Re.Pattern (api_key_prefix ++ [Re.plus api_key_value]) true.

Definition _PATTERNS : list Re.pattern :=
  [pat_openai; pat_ghp; pat_github_pat; pat_bearer; pat_aws; pat_api_key].

Definition REDACTED : str := codes "[REDACTED]".

Definition redact_str (s : str) : str :=
  fold_left (λ out p, Re.sub p REDACTED out) _PATTERNS s.

(** The first character of the sentinel. *)
Definition bracket : char := ch "[".

(** One pass of the loop of [redact_str]. *)
Definition pass (out : str) (p : Re.pattern) : str := Re.sub p REDACTED out.

(** JSON-like Python values.  [VDict] keeps the insertion order of the
    mapping; [VOther] stands for any object that is neither [None], a
    [str], a [list] nor a [dict] and that the filter has no case for
    (floats, tuples, bytes, ...). *)
#[local] Unset Elimination Schemes.
Inductive value :=
| VNone
| VBool (b : bool)
| VInt (n : Z)
| VStr (s : str)
| VList (l : list value)
| VDict (d : list (str * value))
| VOther (tag : N).
#[local] Set Elimination Schemes.

Definition dict := list (str * value).

Fixpoint redact_any (x : value) : value :=
  match x with
  | VNone => VNone
  | VStr s => VStr (redact_str s)
  | VList l => VList (map redact_any l)
  | VDict d => VDict (map (λ kv, (kv.1, redact_any kv.2)) d)
  | _ => x
  end.

Definition redact_event_dict (evt : value) : value := redact_any evt.

(** The strings a value holds in value position: its string leaves, not
    the keys of its mappings. *)
Fixpoint strings_of (v : value) : list str :=
  match v with
  | VStr s => [s]
  | VList l => concat (map strings_of l)
  | VDict d => concat (map (λ kv, strings_of kv.2) d)
  | _ => []
  end.

(** The keys of the mappings of a value, at every depth. *)
Fixpoint keys_of (v : value) : list str :=
  match v with
  | VList l => concat (map keys_of l)
  | VDict d => concat (map (λ kv, kv.1 :: keys_of kv.2) d)
  | _ => []
  end.

(** What the filter is to compute, in the words of its description:
    [None] stays [None], a string is scrubbed, lists and mappings are
    redacted element by element and value by value with the keys left as
    they are, and anything else passes through. *)
#[local] Unset Elimination Schemes.
Inductive redacted_of : value → value → Prop :=
| red_none : redacted_of VNone VNone
| red_str s : redacted_of (VStr s) (VStr (redact_str s))
| red_list l l' : Forall2 redacted_of l l' → redacted_of (VList l) (VList l')
| red_dict d d' :
    Forall2 (λ kv kv', kv.1 = kv'.1 ∧ redacted_of kv.2 kv'.2) d d' →
    redacted_of (VDict d) (VDict d')
| red_bool b : redacted_of (VBool b) (VBool b)
| red_int n : redacted_of (VInt n) (VInt n)
| red_other t : redacted_of (VOther t) (VOther t).
#[local] Set Elimination Schemes.

Definition redact_dict (d : dict) : dict := map (λ kv, (kv.1, redact_any kv.2)) d.

(** No match of any pattern is left in any string leaf. *)
Definition fully_redacted (v : value) : Prop :=
  ∀ s p, s ∈ strings_of v → p ∈ _PATTERNS → Re.clean (Re.compile p) s.

(** ** [app/models.py] *)

(** [COMPLETED] and [CANCELLED] are both an event type and a run status;
    the event types are written [EV_COMPLETED] and [EV_CANCELLED]. *)
Inductive EventType :=
| LOG | STATE_UPDATE | CHECKPOINT_SAVED | INTERRUPT_REQUIRED
| RESUMED | EV_COMPLETED | ERROR | EV_CANCELLED.

Inductive RunStatus :=
| PENDING | RUNNING | WAITING_APPROVAL | CANCELLED | COMPLETED | FAILED.

#[global] Instance EventType_eq_dec : EqDecision EventType.
Proof. solve_decision. Defined.

#[global] Instance RunStatus_eq_dec : EqDecision RunStatus.
Proof. solve_decision. Defined.

Definition EventType_name (t : EventType) : str :=
  match t with
  | LOG => codes "LOG"
  | STATE_UPDATE => codes "STATE_UPDATE"
  | CHECKPOINT_SAVED => codes "CHECKPOINT_SAVED"
  | INTERRUPT_REQUIRED => codes "INTERRUPT_REQUIRED"
  | RESUMED => codes "RESUMED"
  | EV_COMPLETED => codes "COMPLETED"
  | ERROR => codes "ERROR"
  | EV_CANCELLED => codes "CANCELLED"
  end.

Definition RunStatus_name (s : RunStatus) : str :=
  match s with
  | PENDING => codes "PENDING"
  | RUNNING => codes "RUNNING"
  | WAITING_APPROVAL => codes "WAITING_APPROVAL"
  | CANCELLED => codes "CANCELLED"
  | COMPLETED => codes "COMPLETED"
  | FAILED => codes "FAILED"
  end.

Definition all_event_types : list EventType :=
  [LOG; STATE_UPDATE; CHECKPOINT_SAVED; INTERRUPT_REQUIRED;
   RESUMED; EV_COMPLETED; ERROR; EV_CANCELLED].

(** Validation of a field annotated [EventType] (a [Literal]). *)
Definition as_EventType (v : value) : option EventType :=
  match v with
  | VStr s => find (λ t, bool_decide (EventType_name t = s)) all_event_types
  | _ => None
  end.

Record AdapterEvent := mkAdapterEvent {
  ts : Z;
  run_id : str;
  span_id : str;
  parent_span_id : option str;
  type : EventType;
  payload : dict
}.

Definition opt_str (o : option str) : value :=
  match o with Some s => VStr s | None => VNone end.

Definition to_afc_format (ev : AdapterEvent) : value :=
  VDict [ (codes "ts", VInt (ts ev));
          (codes "run_id", VStr (run_id ev));
          (codes "span_id", VStr (span_id ev));
          (codes "parent_span_id", opt_str (parent_span_id ev));
          (codes "type", VStr (EventType_name (type ev)));
          (codes "payload", VDict (payload ev)) ].

Record RunCreateRequest := { prompt : option str }.

Record RunCreateResponse := mkRunCreateResponse {
  resp_runId : str;
  resp_status : RunStatus
}.

Record RunState := mkRunState {
  runId : str;
  status : RunStatus;
  createdAtMs : Z;
  updatedAtMs : Z;
  threadId : str;
  rootSpanId : str;
  interrupt : option dict;
  error : option str
}.

Record ResumeRequest := { approved : bool; notes : option str }.

Record ResumeResponse := { resume_success : bool }.
Record CancelResponse := { cancel_success : bool }.

Record RunInfoResponse := mkRunInfoResponse {
  info_runId : str;
  info_status : RunStatus;
  info_createdAtMs : Z;
  info_updatedAtMs : Z;
  info_interrupt : option dict;
  info_error : option str
}.

(** Attribute assignment on a [RunState]. *)
Definition with_status (s : RunStatus) (r : RunState) : RunState :=
  mkRunState (runId r) s (createdAtMs r) (updatedAtMs r) (threadId r)
    (rootSpanId r) (interrupt r) (error r).
Definition with_updatedAtMs (t : Z) (r : RunState) : RunState :=
  mkRunState (runId r) (status r) (createdAtMs r) t (threadId r)
    (rootSpanId r) (interrupt r) (error r).
Definition with_interrupt (i : option dict) (r : RunState) : RunState :=
  mkRunState (runId r) (status r) (createdAtMs r) (updatedAtMs r) (threadId r)
    (rootSpanId r) i (error r).
Definition with_error (e : option str) (r : RunState) : RunState :=
  mkRunState (runId r) (status r) (createdAtMs r) (updatedAtMs r) (threadId r)
    (rootSpanId r) (interrupt r) e.

(** ** [app/store.py]

    Every method of [MemoryStore] holds the lock of the store for its
    whole body.  Requests are run one after another here, so the lock
    does not appear. *)

Record MemoryStore := mkStore {
  runs : gmap str RunState;
  events : gmap str (list AdapterEvent)
}.

Definition empty_store : MemoryStore := mkStore ∅ ∅.

(** ** The process around the handlers

    What the handlers read from outside the repository: the wall clock
    behind [now_ms], the generator behind [new_id], and the compiled graph
    behind [GRAPH.invoke].  The [k]-th reading of the clock and the [k]-th
    identifier are given by functions.  A call of [GRAPH.invoke] acts on
    the store only through [emit_event], as the nodes of
    [app/langgraph_poc.py] do: it yields the events its nodes emit, in
    order, and either returns or raises an exception with a message. *)

Record emission := Emit {
  em_run_id : str;
  em_span_id : str;
  em_type : str;
  em_payload : dict
}.

Class Host := {
  graph_state : Type;
  time_ms : nat → Z;
  uuid4 : nat → str;
  graph_invoke : dict → str → graph_state →
                 list emission * option str * graph_state
}.

Inductive exn :=
| HTTPException (status_code : Z) (detail : str)
| Exception (msg : str).

(** [str(e)] *)
Definition exn_str (e : exn) : str :=
  match e with
  | HTTPException _ d => d
  | Exception m => m
  end.

Inductive result (A : Type) :=
| Ok (a : A)
| Raise (e : exn).
Arguments Ok {A} a.
Arguments Raise {A} e.

Section Coordinator.
Context `{Host}.

Record World := mkWorld {
  STORE : MemoryStore;
  clock_reads : nat;
  ids_drawn : nat;
  GRAPH : graph_state
}.

(** A handler computes on the world and returns or raises. *)
Definition Handler (A : Type) : Type := World → result A * World.

Definition ret {A} (a : A) : Handler A := λ w, (Ok a, w).
Definition bind {A B} (m : Handler A) (k : A → Handler B) : Handler B :=
  λ w, match m w with
       | (Ok a, w') => k a w'
       | (Raise e, w') => (Raise e, w')
       end.
Definition raise {A} (e : exn) : Handler A := λ w, (Raise e, w).
Definition try_except {A} (body : Handler A) (handler : exn → Handler A)
    : Handler A :=
  λ w, match body w with
       | (Ok a, w') => (Ok a, w')
       | (Raise e, w') => handler e w'
       end.

Definition get_store : Handler MemoryStore := λ w, (Ok (STORE w), w).
Definition modify_store (f : MemoryStore → MemoryStore) : Handler unit :=
  λ w, (Ok tt, mkWorld (f (STORE w)) (clock_reads w) (ids_drawn w) (GRAPH w)).

End Coordinator.

Declare Scope handler_scope.
Delimit Scope handler_scope with handler.
Notation "x <- m ;; k" := (bind m (λ x, k))
  (at level 100, m at next level, right associativity) : handler_scope.
Notation "m ;; k" := (bind m (λ _, k))
  (at level 100, right associativity) : handler_scope.

Section Handlers.
Context `{Host}.
Local Open Scope handler_scope.

(** [models.now_ms] and [models.new_id] *)
Definition now_ms : Handler Z :=
  λ w, (Ok (time_ms (clock_reads w)),
        mkWorld (STORE w) (S (clock_reads w)) (ids_drawn w) (GRAPH w)).

Definition new_id : Handler str :=
  λ w, (Ok (uuid4 (ids_drawn w)),
        mkWorld (STORE w) (clock_reads w) (S (ids_drawn w)) (GRAPH w)).

(** [RunState(runId=.., status=.., threadId=.., rootSpanId=..)]: the two
    time stamps come from their default factories, in field order. *)
Definition new_RunState (rid : str) (st : RunStatus) (thread root : str)
    : Handler RunState :=
  created <- now_ms ;;
  updated <- now_ms ;;
  ret (mkRunState rid st created updated thread root None None).

(** *** [MemoryStore] methods *)

Definition STORE_create_run (run : RunState) : Handler unit :=
  modify_store (λ s, mkStore (<[runId run := run]> (runs s))
                             (<[runId run := []]> (events s))).

(** [self.runs[run_id]]: a missing key raises [KeyError]. *)
Definition STORE_get_run (rid : str) : Handler RunState :=
  s <- get_store ;;
  match runs s !! rid with
  | Some r => ret r
  | None => raise (Exception rid)
  end.

Definition STORE_has_run (rid : str) : Handler bool :=
  s <- get_store ;;
  ret (bool_decide (is_Some (runs s !! rid))).

(** A handler's local variable [run] and the entry of [STORE.runs] are
    one and the same Python object: [STORE.create_run] stores the object
    it is given and [STORE.get_run] hands the stored object out.  A
    variable holding a run is therefore modelled as the key of the run in
    [STORE.runs], attribute access as access to the stored record. *)
Definition getattr {A} (run : str) (field : RunState → A) : Handler A :=
  r <- STORE_get_run run ;;
  ret (field r).

Definition setattr (run : str) (assign : RunState → RunState) : Handler unit :=
  modify_store (λ s, mkStore (alter assign run (runs s)) (events s)).

(** [self.runs[run.runId] = run] *)
Definition STORE_update_run (run : str) : Handler unit :=
  r <- STORE_get_run run ;;
  modify_store (λ s, mkStore (<[runId r := r]> (runs s)) (events s)).

(** [self.events.setdefault(run_id, []).append(ev)] *)
Definition STORE_add_event (rid : str) (ev : AdapterEvent) : Handler unit :=
  modify_store (λ s,
    mkStore (runs s) (<[rid := default [] (events s !! rid) ++ [ev]]> (events s))).

(** [list(self.events.get(run_id, []))] *)
Definition STORE_list_events (rid : str) : Handler (list AdapterEvent) :=
  s <- get_store ;;
  ret (default [] (events s !! rid)).

(** *** [app/emitter.py] *)

(** Field validation of [AdapterEvent]; a value of the wrong type raises
    a validation error. *)
Definition validation_error {A} (field : string) : Handler A :=
  raise (Exception (codes field)).

Definition as_int (field : string) (v : value) : Handler Z :=
  match v with VInt n => ret n | _ => validation_error field end.
Definition as_str (field : string) (v : value) : Handler str :=
  match v with VStr s => ret s | _ => validation_error field end.
Definition as_opt_str (field : string) (v : value) : Handler (option str) :=
  match v with
  | VNone => ret None
  | VStr s => ret (Some s)
  | _ => validation_error field
  end.
Definition as_type (field : string) (v : value) : Handler EventType :=
  match as_EventType v with Some t => ret t | None => validation_error field end.
Definition as_dict (field : string) (v : value) : Handler dict :=
  match v with VDict d => ret d | _ => validation_error field end.

Definition assoc (k : str) (d : dict) : option value :=
  snd <$> find (λ kv, bool_decide (kv.1 = k)) d.

(** [d[k]] and [d.get(k)] *)
Definition subscript (d : value) (k : string) : Handler value :=
  match d with
  | VDict kv =>
      match assoc (codes k) kv with
      | Some v => ret v
      | None => raise (Exception (codes k))
      end
  | _ => raise (Exception (codes k))
  end.

Definition dict_get (d : value) (k : string) : value :=
  match d with
  | VDict kv => default VNone (assoc (codes k) kv)
  | _ => VNone
  end.

Definition emit_event (run_id span_id type : str) (payload : dict)
    (parent_span_id : option str) : Handler AdapterEvent :=
  ts0 <- now_ms ;;
  ty <- as_type "type" (VStr type) ;;
  let ev := mkAdapterEvent ts0 run_id span_id parent_span_id ty payload in
  (* Redact before storing/emitting *)
  let redacted := redact_event_dict (to_afc_format ev) in
  (* Rehydrate as AdapterEvent for internal store consistency *)
  v_ts <- subscript redacted "ts" ;;
  v_run <- subscript redacted "run_id" ;;
  v_span <- subscript redacted "span_id" ;;
  v_type <- subscript redacted "type" ;;
  v_payload <- subscript redacted "payload" ;;
  ts2 <- as_int "ts" v_ts ;;
  run2 <- as_str "run_id" v_run ;;
  span2 <- as_str "span_id" v_span ;;
  parent2 <- as_opt_str "parent_span_id" (dict_get redacted "parent_span_id") ;;
  ty2 <- as_type "type" v_type ;;
  payload2 <- as_dict "payload" v_payload ;;
  let ev2 := mkAdapterEvent ts2 run2 span2 parent2 ty2 payload2 in
  STORE_add_event run_id ev2 ;;
  ret ev2.

(** *** [GRAPH.invoke]: the nodes' emissions, then the outcome. *)
Fixpoint emit_all (ems : list emission) : Handler unit :=
  match ems with
  | [] => ret tt
  | e :: ems' =>
      emit_event (em_run_id e) (em_span_id e) (em_type e) (em_payload e) None ;;
      emit_all ems'
  end.

Definition GRAPH_invoke (input : dict) (thread_id : str) : Handler unit :=
  λ w,
    let '(ems, outcome, g) := graph_invoke input thread_id (GRAPH w) in
    bind (emit_all ems)
         (λ _, match outcome with
               | None => ret tt
               | Some msg => raise (Exception msg)
               end)
         (mkWorld (STORE w) (clock_reads w) (ids_drawn w) g).

(** *** [app/routes/runs.py] *)

Definition _require_run (run_id : str) : Handler str :=
  known <- STORE_has_run run_id ;;
  if known : bool then
    STORE_get_run run_id ;; ret run_id
  else raise (HTTPException 404 (codes "run not found")).

Definition approval_gate : dict :=
  [ (codes "gate_type", VStr (codes "approval"));
    (codes "resume_schema",
     VDict [ (codes "approved", VStr (codes "bool"));
             (codes "notes", VStr (codes "str?")) ]) ].

Definition create_run (req : RunCreateRequest) : Handler RunCreateResponse :=
  run_id <- new_id ;;
  root_span <- new_id ;;
  fresh <- new_RunState run_id PENDING run_id root_span ;;
  STORE_create_run fresh ;;
  let run := runId fresh in
  (* Start graph execution up to interrupt *)
  setattr run (with_status RUNNING) ;;
  t <- now_ms ;;
  setattr run (with_updatedAtMs t) ;;
  STORE_update_run run ;;
  emit_event run_id root_span (codes "LOG")
    [(codes "msg", VStr (codes "run created"))] None ;;
  try_except
    ( thread_id <- getattr run threadId ;;
      GRAPH_invoke [ (codes "plan", VStr (codes "start"));
                     (codes "_run_id", VStr run_id);
                     (codes "_root_span_id", VStr root_span) ] thread_id ;;
      setattr run (with_status WAITING_APPROVAL) ;;
      setattr run (with_interrupt (Some approval_gate)) ;;
      t <- now_ms ;;
      setattr run (with_updatedAtMs t) ;;
      STORE_update_run run ;;
      gate <- getattr run interrupt ;;
      emit_event run_id root_span (codes "INTERRUPT_REQUIRED")
        (default [] gate) None ;;
      st <- getattr run status ;;
      ret (mkRunCreateResponse run_id st) )
    (λ e,
      setattr run (with_status FAILED) ;;
      setattr run (with_error (Some (exn_str e))) ;;
      t <- now_ms ;;
      setattr run (with_updatedAtMs t) ;;
      STORE_update_run run ;;
      emit_event run_id root_span (codes "ERROR")
        [(codes "error", VStr (exn_str e))] None ;;
      st <- getattr run status ;;
      ret (mkRunCreateResponse run_id st)).

Definition get_run (run_id : str) : Handler RunInfoResponse :=
  run <- _require_run run_id ;;
  r <- STORE_get_run run ;;
  ret (mkRunInfoResponse (runId r) (status r) (createdAtMs r) (updatedAtMs r)
         (interrupt r) (error r)).

(** The response streams one line per event, the JSON text of its
    envelope, in list order; the envelopes stand for the lines. *)
Definition get_events (run_id : str) : Handler (list value) :=
  _require_run run_id ;;
  evs <- STORE_list_events run_id ;;
  ret (map to_afc_format evs).

Definition resume_run (run_id : str) (req : ResumeRequest)
    : Handler ResumeResponse :=
  run <- _require_run run_id ;;
  st <- getattr run status ;;
  if bool_decide (st ≠ WAITING_APPROVAL) then
    raise (HTTPException 409
             (codes "run not waiting approval: " ++ RunStatus_name st))
  else
    root <- getattr run rootSpanId ;;
    emit_event run_id root (codes "RESUMED")
      [ (codes "approved", VBool (approved req));
        (codes "notes", opt_str (notes req)) ] None ;;
    try_except
      ( thread_id <- getattr run threadId ;;
        root <- getattr run rootSpanId ;;
        GRAPH_invoke [ (codes "approved", VBool (approved req));
                       (codes "_run_id", VStr run_id);
                       (codes "_root_span_id", VStr root) ] thread_id ;;
        setattr run (with_status COMPLETED) ;;
        setattr run (with_interrupt None) ;;
        t <- now_ms ;;
        setattr run (with_updatedAtMs t) ;;
        STORE_update_run run ;;
        ret {| resume_success := true |} )
      (λ e,
        setattr run (with_status FAILED) ;;
        setattr run (with_error (Some (exn_str e))) ;;
        t <- now_ms ;;
        setattr run (with_updatedAtMs t) ;;
        STORE_update_run run ;;
        root <- getattr run rootSpanId ;;
        emit_event run_id root (codes "ERROR")
          [(codes "error", VStr (exn_str e))] None ;;
        raise e).

Definition cancel_run (run_id : str) : Handler CancelResponse :=
  run <- _require_run run_id ;;
  st <- getattr run status ;;
  if bool_decide (st = COMPLETED ∨ st = FAILED) then
    raise (HTTPException 409
             (codes "cannot cancel terminal run: " ++ RunStatus_name st))
  else if bool_decide (st = CANCELLED) then
    ret {| cancel_success := true |}
  else
    setattr run (with_status CANCELLED) ;;
    t <- now_ms ;;
    setattr run (with_updatedAtMs t) ;;
    STORE_update_run run ;;
    root <- getattr run rootSpanId ;;
    emit_event run_id root (codes "CANCELLED")
      [(codes "msg", VStr (codes "cancelled"))] None ;;
    ret {| cancel_success := true |}.

End Handlers.

(** ** [app/langgraph_poc.py]

    The three nodes of the graph, as the events they emit for a given
    graph state. *)

Definition state_get (state : dict) (k : string) : value :=
  default VNone (assoc (codes k) state).

(** [state.get(k, "unknown")] for the two context keys, which the routes
    always set to strings. *)
Definition state_id (state : dict) (k : string) : str :=
  match assoc (codes k) state with
  | Some (VStr s) => s
  | _ => codes "unknown"
  end.

Definition plan_node (state : dict) : list emission :=
  let run_id := state_id state "_run_id" in
  let span_id := state_id state "_root_span_id" in
  [ Emit run_id span_id (codes "LOG") [(codes "msg", VStr (codes "plan"))];
    Emit run_id span_id (codes "STATE_UPDATE")
      [(codes "state", VDict [(codes "plan", VStr (codes "planned"))])];
    Emit run_id span_id (codes "CHECKPOINT_SAVED")
      [(codes "at", VStr (codes "plan"))] ].

Definition continue_node (state : dict) : list emission :=
  let run_id := state_id state "_run_id" in
  let span_id := state_id state "_root_span_id" in
  [ Emit run_id span_id (codes "LOG") [(codes "msg", VStr (codes "continue"))];
    Emit run_id span_id (codes "STATE_UPDATE")
      [(codes "state", VDict [(codes "plan", state_get state "plan");
                              (codes "approved", state_get state "approved")])];
    Emit run_id span_id (codes "CHECKPOINT_SAVED")
      [(codes "at", VStr (codes "continue"))] ].

Definition complete_node (state : dict) : list emission :=
  let run_id := state_id state "_run_id" in
  let span_id := state_id state "_root_span_id" in
  [ Emit run_id span_id (codes "LOG") [(codes "msg", VStr (codes "complete"))];
    Emit run_id span_id (codes "COMPLETED")
      [(codes "final_state",
        VDict [(codes "plan", state_get state "plan");
               (codes "approved", state_get state "approved")])] ].

(** A host to run the handlers on: a clock that advances by one
    millisecond per reading, identifiers [id-], [id-x], [id-xx], ..., and
    a graph that runs [plan] and pauses before [continue] on the first
    call for a thread and runs [continue] and [complete] on the next.
    With [fault] set, every call of the graph raises instead. *)
Definition poc_invoke (fault : option str) (input : dict) (thread_id : str)
    (paused : gmap str dict) : list emission * option str * gmap str dict :=
  match fault with
  | Some msg => ([], Some msg, paused)
  | None =>
      match paused !! thread_id with
      | None =>
          let state := (codes "plan", VStr (codes "planned")) :: input in
          (plan_node input, None, <[thread_id := state]> paused)
      | Some saved =>
          let state := input ++ saved in
          (continue_node state ++ complete_node state, None,
           delete thread_id paused)
      end
  end.

Definition poc_host (fault : option str) : Host :=
  {| graph_state := gmap str dict;
     time_ms k := (1700000000000 + Z.of_nat k)%Z;
     uuid4 k := codes "id-" ++ replicate k (ch "x");
     graph_invoke := poc_invoke fault |}.

Definition poc_world (fault : option str) : @World (poc_host fault) :=
  @mkWorld (poc_host fault) empty_store 0 0 ∅.

(** ** Operation sequences *)

Inductive op :=
| Create (req : RunCreateRequest)
| Resume (run_id : str) (req : ResumeRequest)
| Cancel (run_id : str)
| Get (run_id : str)
| Events (run_id : str).

Section Sequences.
Context `{Host}.

(** The world after one request, whatever its response. *)
Definition step (o : op) (w : World) : World :=
  match o with
  | Create req => (create_run req w).2
  | Resume rid req => (resume_run rid req w).2
  | Cancel rid => (cancel_run rid w).2
  | Get rid => (get_run rid w).2
  | Events rid => (get_events rid w).2
  end.

Definition steps (os : list op) (w : World) : World :=
  fold_left (λ w o, step o w) os w.

Definition status_of (rid : str) (w : World) : option RunStatus :=
  status <$> runs (STORE w) !! rid.

Definition events_of (rid : str) (w : World) : list AdapterEvent :=
  default [] (events (STORE w) !! rid).

End Sequences.

(** ** Vocabulary of the properties

    The event [emit_event] builds, the log after the emissions of the
    graph, the registry after a handler has updated a run, and the
    invariants of the store. *)

Section Vocabulary.
Context `{Host}.

Implicit Types (rs : gmap str RunState) (es : gmap str (list AdapterEvent)).
Implicit Types (c i : nat) (g : graph_state).

(** The envelope of [to_afc_format], field by field. *)
Definition envelope (a b c d e f : value) : value :=
  VDict [ (codes "ts", a); (codes "run_id", b); (codes "span_id", c);
          (codes "parent_span_id", d); (codes "type", e); (codes "payload", f) ].

(** The event [emit_event] builds and stores. *)
Definition emitted (now : nat) (rid sid : str) (ty : EventType) (pl : dict)
    (parent : option str) : AdapterEvent :=
  mkAdapterEvent (time_ms now) (redact_str rid) (redact_str sid)
    (redact_str <$> parent) ty (redact_dict pl).

(** The log after [STORE.add_event]. *)
Definition append_event (rid : str) (ev : AdapterEvent) es :=
  <[rid := default [] (es !! rid) ++ [ev]]> es.

(** The first emission with a type outside [EventType] fails validation
    in [emit_event]; the exception leaves the node and the graph. *)
Fixpoint emissions_fault (ems : list emission) : option exn :=
  match ems with
  | [] => None
  | e :: ems' =>
      match as_EventType (VStr (em_type e)) with
      | Some _ => emissions_fault ems'
      | None => Some (Exception (codes "type"))
      end
  end.

(** The clock and the log after the emissions of a call of the graph,
    from the first on, up to the first that fails. *)
Fixpoint emissions_log (ems : list emission) c es
    : nat * gmap str (list AdapterEvent) :=
  match ems with
  | [] => (c, es)
  | e :: ems' =>
      match as_EventType (VStr (em_type e)) with
      | Some ty =>
          emissions_log ems' (S c)
            (append_event (em_run_id e)
               (emitted c (em_run_id e) (em_span_id e) ty (em_payload e) None) es)
      | None => (S c, es)
      end
  end.

(** The exception a call of the graph raises, if it raises one. *)
Definition graph_fault (input : dict) (thread : str) g : option exn :=
  match emissions_fault (graph_invoke input thread g).1.1 with
  | Some e => Some e
  | None => Exception <$> (graph_invoke input thread g).1.2
  end.

(** The clock and the log, and the state of the graph, after a call. *)
Definition graph_log (input : dict) (thread : str) c es g :=
  emissions_log (graph_invoke input thread g).1.1 c es.

Definition graph_next (input : dict) (thread : str) g : graph_state :=
  (graph_invoke input thread g).2.

Definition outcome (fault : option exn) : result unit :=
  match fault with Some e => Raise e | None => Ok tt end.

(** The registry after a handler has assigned to the attributes of the
    run stored under [rid] and called [STORE.update_run] on it. *)
Definition store_run (rid : str) (r' : RunState) rs : gmap str RunState :=
  <[runId r' := r']> (<[rid := r']> rs).

(** The payloads and graph inputs the handlers build. *)
Definition resume_payload (req : ResumeRequest) : dict :=
  [ (codes "approved", VBool (approved req)); (codes "notes", opt_str (notes req)) ].

Definition resume_input (req : ResumeRequest) (rid root : str) : dict :=
  [ (codes "approved", VBool (approved req));
    (codes "_run_id", VStr rid);
    (codes "_root_span_id", VStr root) ].

Definition error_payload (e : exn) : dict := [(codes "error", VStr (exn_str e))].

Definition create_input (rid root : str) : dict :=
  [ (codes "plan", VStr (codes "start"));
    (codes "_run_id", VStr rid);
    (codes "_root_span_id", VStr root) ].

(** Every run is stored under its own identifier. *)
Definition registry_consistent (w : World) : Prop :=
  ∀ k r, runs (STORE w) !! k = Some r → runId r = k.

(** Every identifier that has an event sequence has a run. *)
Definition log_within_registry (w : World) : Prop :=
  ∀ k, is_Some (events (STORE w) !! k) → is_Some (runs (STORE w) !! k).

(** The terminal states of a run. *)
Definition terminal (st : RunStatus) : Prop :=
  st = COMPLETED ∨ st = FAILED ∨ st = CANCELLED.

(** The nodes of the graph emit under the [_run_id] of the input. *)
Definition graph_emits_under_run_id : Prop :=
  ∀ input thread g rid,
    assoc (codes "_run_id") input = Some (VStr rid) →
    Forall (λ e, em_run_id e = rid) (graph_invoke input thread g).1.1.

End Vocabulary.

(** The claim that an event is appended only under an identifier that
    has a run in the registry at that moment. *)
Definition append_requires_registered_run : Prop :=
  ∀ (H : Host) rid sid type pl parent (w : World) ev w',
    emit_event rid sid type pl parent w = (Ok ev, w') →
    is_Some (runs (STORE w) !! rid)
    ∧ (∀ k, is_Some (events (STORE w') !! k) →
            is_Some (events (STORE w) !! k) ∨ is_Some (runs (STORE w) !! k)).

(** A registry with one run, [r1], in a given status. *)
Definition sample_run (st : RunStatus) : RunState :=
  mkRunState (codes "r1") st 1700000000000 1700000000000 (codes "r1") (codes "s1")
    None None.

Definition sample_world (fault : option str) (st : RunStatus)
    : @World (poc_host fault) :=
  @mkWorld (poc_host fault)
    (mkStore {[ codes "r1" := sample_run st ]} {[ codes "r1" := [] ]}) 0 0 ∅.

(** * Properties *)

(** ** The matcher *)

Module ReFacts.
Import Re.

Lemma span_le c s : span c s ≤ length s.
Proof. induction s as [|x s IH]; simpl; [lia|]. destruct (c x); simpl; lia. Qed.

Lemma span_take c s k :
  k ≤ span c s → Forall (λ x, c x = true) (take k s).
Proof.
  revert k. induction s as [|x s IH]; intros k Hk; simpl in *.
  - rewrite take_nil. constructor.
  - destruct k as [|k]; [constructor|]. simpl.
    destruct (c x) eqn:E; [|lia]. constructor; [done|]. apply IH. lia.
Qed.

Lemma span_app c (m rest : str) :
  Forall (λ x, c x = true) m → length m ≤ span c (m ++ rest).
Proof.
  induction 1 as [|x m Hx _ IH]; simpl; [lia|]. rewrite Hx. lia.
Qed.

Lemma cap_le m n : cap m n ≤ n.
Proof. destruct m; simpl; lia. Qed.

Lemma cap_most m n h : m = Some h → cap m n ≤ h.
Proof. intros ->. simpl. lia. Qed.

Lemma cap_ge m n k :
  k ≤ n → (∀ h, m = Some h → k ≤ h) → k ≤ cap m n.
Proof. destruct m as [h|]; simpl; intros Hn Hh; [specialize (Hh h eq_refl)|]; lia. Qed.

Lemma backtrack_sound rest l s k n :
  backtrack rest l s k = Some n →
  ∃ j m, l ≤ j ∧ j ≤ k ∧ rest (drop j s) = Some m ∧ n = j + m.
Proof.
  induction k as [|k IH]; simpl.
  - destruct (0 <? l) eqn:E; [done|]. apply Nat.ltb_ge in E.
    destruct (rest (drop 0 s)) as [m|] eqn:R; [|done].
    intros [= <-]. exists 0, m. repeat split; [lia|lia|done].
  - destruct (S k <? l) eqn:E; [done|]. apply Nat.ltb_ge in E.
    destruct (rest (drop (S k) s)) as [m|] eqn:R.
    + intros [= <-]. exists (S k), m. repeat split; [lia|lia|done].
    + intros Hb. destruct (IH Hb) as (j & m & ? & ? & ? & ?).
      exists j, m. repeat split; [lia|lia|done|done].
Qed.

Lemma backtrack_complete rest l s k j :
  l ≤ j → j ≤ k → is_Some (rest (drop j s)) →
  is_Some (backtrack rest l s k).
Proof.
  intros Hl. induction k as [|k IH]; intros Hk Hj.
  - assert (j = 0) as -> by lia. simpl.
    destruct (0 <? l) eqn:E; [apply Nat.ltb_lt in E; lia|].
    destruct Hj as [m Hm]. simpl in Hm. rewrite Hm. eauto.
  - cbn [backtrack].
    destruct (S k <? l) eqn:E; [apply Nat.ltb_lt in E; lia|].
    destruct (rest (drop (S k) s)) as [m|] eqn:R; [eauto|].
    apply IH; [|done].
    destruct (decide (j = S k)) as [->|]; [|lia].
    rewrite R in Hj. by destruct Hj.
Qed.

Lemma take_plus (s : str) j m : take (j + m) s = take j s ++ take m (drop j s).
Proof.
  revert s. induction j as [|j IH]; intros s; simpl; [by rewrite drop_0|].
  destruct s as [|x s]; simpl; [by rewrite take_nil|]. by rewrite IH.
Qed.

(** A reported match is a string of the pattern's language and lies
    within the subject. *)
Lemma match_here_sound r s n :
  match_here r s = Some n → n ≤ length s ∧ lang r (take n s).
Proof.
  revert s n. induction r as [|a r IH]; intros s n; simpl.
  - intros [= <-]. split; [lia|]. rewrite take_0. constructor.
  - intros Hb. apply backtrack_sound in Hb as (j & m & Hl & Hk & Hr & ->).
    apply IH in Hr as [Hm Hlang].
    assert (j ≤ span (cls a) s) by (etrans; [done|apply cap_le]).
    pose proof (span_le (cls a) s).
    rewrite length_drop in Hm. split; [lia|].
    rewrite take_plus. constructor; [by apply span_take| | |done].
    + rewrite length_take. lia.
    + intros h Hh. rewrite length_take.
      pose proof (cap_most _ (span (cls a) s) _ Hh). lia.
Qed.

(** Wherever a string of the language stands, the matcher finds a
    match. *)
Lemma match_here_complete r m :
  lang r m → ∀ rest, is_Some (match_here r (m ++ rest)).
Proof.
  induction 1 as [|a r m1 m2 Hcls Hlo Hhi _ IH]; intros rest; simpl; [eauto|].
  apply backtrack_complete with (j := length m1); [done| |].
  - apply cap_ge; [|done]. rewrite <- app_assoc. by apply span_app.
  - rewrite <- app_assoc, drop_app_length. apply IH.
Qed.

Lemma lang_min_length r m : lang r m → min_length r ≤ length m.
Proof.
  induction 1; simpl; [lia|]. rewrite length_app. lia.
Qed.

Lemma lang_avoids r m (c : char) :
  Forall (λ a, cls a c = false) r → lang r m → c ∉ m.
Proof.
  intros Hr Hm. induction Hm as [|a r m1 m2 Hcls _ _ _ IH].
  - apply not_elem_of_nil.
  - inversion Hr as [|? ? Ha Hr']; subst.
    rewrite elem_of_app. intros [Hin|Hin]; [|by apply IH].
    rewrite Forall_forall in Hcls. specialize (Hcls _ Hin). congruence.
Qed.

(** *** Substitution with a pattern that matches no empty string *)
Section Sub.
Variables (r : list atom) (repl : str).
Hypothesis nonempty : 0 < min_length r.

Lemma match_here_pos s n : match_here r s = Some n → 0 < n ∧ n ≤ length s.
Proof.
  intros Hm. apply match_here_sound in Hm as [Hn Hl].
  apply lang_min_length in Hl. rewrite length_take in Hl. lia.
Qed.

Lemma match_here_nil : match_here r [] = None.
Proof.
  destruct (match_here r []) as [n|] eqn:E; [|done].
  apply match_here_pos in E. simpl in E. lia.
Qed.

Lemma sub_go_nil k : sub_go r repl k [] = [].
Proof. simpl. rewrite match_here_nil. by destruct k. Qed.

Lemma sub_go_skip k s :
  k ≤ length s → sub_go r repl k s = sub_go r repl 0 (drop k s).
Proof.
  revert k. induction s as [|x s IH]; intros k Hk.
  - rewrite drop_nil. by rewrite !sub_go_nil.
  - destruct k as [|k]; [done|]. simpl in *. apply IH. lia.
Qed.

(** One step of the scan. *)
Lemma sub_go_copy x s :
  match_here r (x :: s) = None →
  sub_go r repl 0 (x :: s) = x :: sub_go r repl 0 s.
Proof. intros E. simpl in *. by rewrite E. Qed.

Lemma sub_go_replace s n :
  match_here r s = Some n →
  sub_go r repl 0 s = repl ++ sub_go r repl 0 (drop n s).
Proof.
  intros E. pose proof (match_here_pos _ _ E) as [Hn Hl].
  destruct s as [|x s]; [simpl in Hl; lia|].
  destruct n as [|n]; [lia|]. cbn [sub_go]. rewrite E.
  rewrite sub_go_skip; [done|]. simpl in Hl. lia.
Qed.

Lemma clean_tail x s : clean r (x :: s) → clean r s.
Proof. intros Hc j. apply (Hc (S j)). Qed.

Lemma clean_drop k s : clean r s → clean r (drop k s).
Proof. intros Hc j. rewrite drop_drop. apply Hc. Qed.

(** A string without a match is returned as it is. *)
Lemma sub_go_clean s : clean r s → sub_go r repl 0 s = s.
Proof.
  induction s as [|x s IH]; intros Hc; [apply sub_go_nil|].
  rewrite sub_go_copy; [|apply (Hc 0)].
  f_equal. apply IH. by eapply clean_tail.
Qed.

(** A string with a match comes back with the replacement in it. *)
Lemma sub_go_match s j n :
  match_here r (drop j s) = Some n → infix repl (sub_go r repl 0 s).
Proof.
  revert j. induction s as [|x s IH]; intros j Hm.
  - rewrite drop_nil, match_here_nil in Hm. done.
  - destruct (match_here r (x :: s)) as [k|] eqn:E.
    + rewrite (sub_go_replace _ _ E). by exists [], (sub_go r repl 0 (drop k (x :: s))).
    + rewrite (sub_go_copy _ _ E).
      destruct j as [|j]; [simpl in Hm; congruence|].
      destruct (IH j Hm) as (pre & post & ->).
      by exists (x :: pre), post.
Qed.

Lemma sub_go_unchanged_or_replaced s :
  sub_go r repl 0 s = s ∨ infix repl (sub_go r repl 0 s).
Proof.
  induction s as [|x s IH]; [left; apply sub_go_nil|].
  destruct (match_here r (x :: s)) as [k|] eqn:E.
  - right. by apply (sub_go_match _ 0 k).
  - rewrite (sub_go_copy _ _ E). destruct IH as [->|(pre & post & ->)].
    + by left.
    + right. by exists (x :: pre), post.
Qed.

(** Every suffix of the output is the end of a replacement followed
    by the scan of a suffix of the input. *)
Lemma sub_go_suffix s pre post :
  sub_go r repl 0 s = pre ++ post →
  ∃ e k, suffix e repl ∧ post = e ++ sub_go r repl 0 (drop k s)
         ∧ (e = [] ∨ ∃ j n, j + n = k ∧ match_here r (drop j s) = Some n).
Proof.
  remember (length s) as len eqn:Hlen.
  revert s Hlen pre. induction len as [len IH] using lt_wf_ind.
  intros s -> pre Hout.
  destruct s as [|x s].
  { rewrite sub_go_nil in Hout. symmetry in Hout.
    apply app_eq_nil in Hout as [-> ->].
    exists [], 0. split; [apply suffix_nil|].
    split; [by rewrite sub_go_nil|by left]. }
  destruct pre as [|y pre].
  { exists [], 0. split; [apply suffix_nil|]. split; [done|by left]. }
  destruct (match_here r (x :: s)) as [n|] eqn:E.
  - rewrite (sub_go_replace _ _ E) in Hout.
    pose proof (match_here_pos _ _ E) as [Hn Hl].
    apply app_eq_app in Hout as [l [[Hrepl Hpost]|[Hpre Hpost]]].
    + exists l, n. split; [by exists (y :: pre)|]. split; [done|].
      right. by exists 0, n.
    + specialize (IH (length (drop n (x :: s)))).
      destruct (IH ltac:(rewrite length_drop; simpl in *; lia)
                   _ eq_refl l Hpost) as (e & k & He & -> & Hk).
      exists e, (n + k). split; [done|].
      split; [by rewrite drop_drop|].
      destruct Hk as [->|(j & m & <- & Hm)]; [by left|right].
      exists (n + j), m. split; [lia|]. by rewrite <- drop_drop.
  - rewrite (sub_go_copy _ _ E) in Hout. injection Hout as <- Hout.
    destruct (IH (length s) ltac:(simpl; lia) s eq_refl pre Hout)
      as (e & k & He & -> & Hk).
    exists e, (S k). split; [done|]. split; [done|].
    destruct Hk as [->|(j & m & <- & Hm)]; [by left|right].
    by exists (S j), m.
Qed.

(** Characters in front of the output that cannot start the
    replacement were copied from the input, where no match starts. *)
Lemma sub_go_copied c m s post :
  head repl = Some c → c ∉ m →
  sub_go r repl 0 s = m ++ post →
  ∃ rest, s = m ++ rest ∧ post = sub_go r repl 0 rest
          ∧ (m ≠ [] → match_here r s = None).
Proof.
  intros Hc Hm. revert s. induction m as [|x m IH]; intros s Hout.
  { exists s. by split. }
  destruct s as [|y s]; [by rewrite sub_go_nil in Hout|].
  destruct (match_here r (y :: s)) as [n|] eqn:E.
  - rewrite (sub_go_replace _ _ E) in Hout.
    destruct repl as [|c' repl']; [done|]. simpl in Hc, Hout.
    injection Hc as ->. injection Hout as -> _.
    exfalso. apply Hm. by left.
  - rewrite (sub_go_copy _ _ E) in Hout. injection Hout as -> Hout.
    destruct (IH ltac:(intros ?; apply Hm; by right) s Hout)
      as (rest & -> & -> & _).
    exists rest. by split.
Qed.

End Sub.

Lemma lang_app r1 r2 m1 m2 :
  lang r1 m1 → lang r2 m2 → lang (r1 ++ r2) (m1 ++ m2).
Proof.
  induction 1 as [|a r x y Hcls Hlo Hhi _ IH]; intros H2; [done|].
  rewrite <- app_assoc. simpl. constructor; auto.
Qed.

Lemma lang_app_inv r1 r2 m :
  lang (r1 ++ r2) m → ∃ m1 m2, m = m1 ++ m2 ∧ lang r1 m1 ∧ lang r2 m2.
Proof.
  revert m. induction r1 as [|a r1 IH]; intros m Hm; simpl in Hm.
  - exists [], m. repeat split; [constructor|done].
  - inversion Hm as [|? ? x y Hcls Hlo Hhi Hy]; subst.
    destruct (IH _ Hy) as (m1 & m2 & -> & H1 & H2).
    exists (x ++ m1), m2. rewrite app_assoc.
    repeat split; [|done]. by constructor.
Qed.

(** The first character of a match belongs to the class of the first
    atom, when that atom takes at least one character. *)
Lemma match_here_first a r x s n :
  0 < least a → match_here (a :: r) (x :: s) = Some n → cls a x = true.
Proof.
  intros Ha Hm. apply match_here_sound in Hm as [_ Hl].
  remember (take n (x :: s)) as m eqn:Heq.
  inversion Hl as [|? ? m1 m2 Hcls Hlo]; subst.
  destruct m1 as [|y m1]; [simpl in Hlo; lia|].
  destruct n as [|n]; [done|].
  match goal with E : _ ++ _ = take _ _ |- _ => injection E as -> _ end.
  by inversion Hcls.
Qed.

(** A string of the language occurs nowhere in a clean string. *)
Lemma clean_no_infix r s m : clean r s → lang r m → ¬ infix m s.
Proof.
  intros Hc Hm (pre & post & ->).
  destruct (match_here_complete _ _ Hm post) as [n Hn].
  specialize (Hc (length pre)). rewrite drop_app_length in Hc. congruence.
Qed.

Lemma suffix_drop (e l : str) : suffix e l → ∃ i, e = drop i l.
Proof. intros [k ->]. exists (length k). by rewrite drop_app_length. Qed.

(** *** When a pass leaves no match behind

    [c] is the first character of the replacement.  The patterns looked
    at stay apart from the replacement: no match starts inside it
    ([inside_fails]) and no string of the language holds [c]
    ([avoids]). *)

Section Passes.
Variables (repl : str) (c : char).
Hypothesis repl_head : head repl = Some c.

(** A match in the output of a pass that does not start inside a
    replacement starts at the scan of some suffix of the input. *)
Lemma match_in_output r q t j n :
  0 < min_length r → inside_fails q repl →
  match_here q (drop j (sub_go r repl 0 t)) = Some n →
  ∃ k, match_here q (sub_go r repl 0 (drop k t)) = Some n.
Proof.
  intros Hr Hin Hm.
  destruct (sub_go_suffix r repl Hr t
              (take j (sub_go r repl 0 t)) (drop j (sub_go r repl 0 t)))
    as (e & k & He & Heq & _); [by rewrite take_drop|].
  rewrite Heq in Hm. destruct e as [|x e]; [by exists k|].
  rewrite Hin in Hm; done.
Qed.

(** A later pass brings no match of [q] into a string that had
    none. *)
Lemma sub_go_keeps_clean r q t :
  0 < min_length r → inside_fails q repl → avoids q c →
  clean q t → clean q (sub_go r repl 0 t).
Proof.
  intros Hr Hin Hav Hc j.
  destruct (match_here q (drop j (sub_go r repl 0 t))) as [n|] eqn:E; [|done].
  exfalso. apply match_in_output in E as [k E]; [|done..].
  apply match_here_sound in E as [Hn Hl].
  pose proof (lang_avoids _ _ _ Hav Hl) as Hnot.
  destruct (sub_go_copied r repl Hr c _ (drop k t)
              (drop n (sub_go r repl 0 (drop k t))) repl_head Hnot)
    as (rest & Hrest & _); [by rewrite take_drop|].
  destruct (match_here_complete _ _ Hl rest) as [n' Hn'].
  rewrite <- Hrest in Hn'. specialize (Hc k). congruence.
Qed.

(** A pass with a pattern whose matches never hold [c] leaves no
    match of that pattern. *)
Lemma sub_go_cleans r t :
  0 < min_length r → inside_fails r repl → avoids r c →
  clean r (sub_go r repl 0 t).
Proof.
  intros Hr Hin Hav j.
  destruct (match_here r (drop j (sub_go r repl 0 t))) as [n|] eqn:E; [|done].
  exfalso. apply match_in_output in E as [k E]; [|done..].
  apply match_here_sound in E as [Hn Hl].
  pose proof (lang_avoids _ _ _ Hav Hl) as Hnot.
  destruct (sub_go_copied r repl Hr c _ (drop k t)
              (drop n (sub_go r repl 0 (drop k t))) repl_head Hnot)
    as (rest & Hrest & _ & Hnone); [by rewrite take_drop|].
  destruct (match_here_complete _ _ Hl rest) as [n' Hn'].
  rewrite <- Hrest in Hn'. rewrite Hnone in Hn'; [done|].
  intros Hnil. apply lang_min_length in Hl. rewrite Hnil in Hl.
  simpl in Hl. lia.
Qed.

(** The same for a pattern that ends in [v+], where [v] accepts
    every character that can start a match: only the part in front
    of [v+] has to stay clear of [c]. *)
Lemma sub_go_cleans_trailing h v t :
  let r := h ++ [Atom v 1 None] in
  0 < min_length h → inside_fails r repl → avoids h c →
  (∀ x s n, match_here r (x :: s) = Some n → v x = true) →
  clean r (sub_go r repl 0 t).
Proof.
  intros r Hh Hin Hav Hfirst j.
  assert (0 < min_length r) as Hr.
  { unfold r. clear -Hh. induction h; simpl in *; lia. }
  destruct (match_here r (drop j (sub_go r repl 0 t))) as [n|] eqn:E; [|done].
  exfalso. apply match_in_output in E as [k E]; [|done..].
  apply match_here_sound in E as [Hn Hl].
  apply lang_app_inv in Hl as (m1 & m2 & Hm & H1 & H2).
  inversion H2 as [|? ? m3 m4 Hcls Hlo _ H4]; subst. inversion H4; subst.
  rewrite app_nil_r in Hm. simpl in Hlo.
  destruct m3 as [|x m3]; [simpl in Hlo; lia|].
  pose proof (lang_avoids _ _ _ Hav H1) as Hnot.
  destruct (sub_go_copied r repl Hr c m1 (drop k t)
              ((x :: m3) ++ drop n (sub_go r repl 0 (drop k t)))
              repl_head Hnot)
    as (rest & Hrest & Hpost & Hnone).
  { rewrite app_assoc, <- Hm. by rewrite take_drop. }
  assert (m1 ≠ []) as Hm1.
  { intros ->. apply lang_min_length in H1. simpl in H1. lia. }
  specialize (Hnone Hm1).
  assert (∃ y rest', rest = y :: rest' ∧ v y = true) as (y & rest' & -> & Hy).
  { destruct rest as [|y rest']; [by rewrite sub_go_nil in Hpost|].
    exists y, rest'. split; [done|].
    destruct (match_here r (y :: rest')) as [n'|] eqn:E'; [by eapply Hfirst|].
    rewrite sub_go_copy in Hpost by done.
    injection Hpost as -> _. by inversion Hcls. }
  assert (lang r (m1 ++ [y])) as Hl.
  { apply lang_app; [done|].
    apply (lang_cons (Atom v 1 None) [] [y] []); simpl;
      [by repeat constructor|lia|done|constructor]. }
  destruct (match_here_complete _ _ Hl rest') as [n' Hn'].
  rewrite <- app_assoc in Hn'. simpl in Hn'. rewrite <- Hrest in Hn'.
  congruence.
Qed.

End Passes.

End ReFacts.

(** ** [redact_str] *)

Module RedactFacts.
Import Re ReFacts.

Lemma REDACTED_head : head REDACTED = Some bracket.
Proof. reflexivity. Qed.

Lemma patterns_nonempty :
  Forall (λ p, 0 < min_length (compile p)) _PATTERNS.
Proof. repeat constructor; vm_compute; lia. Qed.

Lemma patterns_inside_fail :
  Forall (λ p, inside_fails (compile p) REDACTED) _PATTERNS.
Proof.
  repeat constructor; intros e w He Hs;
    apply suffix_drop in Hs as [i ->];
    do 10 (destruct i as [|i]; [reflexivity|]);
    exfalso; apply He; by destruct i.
Qed.

Lemma patterns_avoid_bracket :
  Forall (λ p, avoids (compile p) bracket)
    [pat_openai; pat_ghp; pat_github_pat; pat_bearer; pat_aws].
Proof. repeat constructor. Qed.

Lemma api_key_prefix_avoids_bracket :
  avoids (compile (Pattern api_key_prefix true)) bracket.
Proof. repeat constructor. Qed.

Lemma api_key_split :
  compile pat_api_key
  = compile (Pattern api_key_prefix true)
    ++ [Atom (accepts true api_key_value) 1 None].
Proof. reflexivity. Qed.

(** A character that matches the letter a, in either case, is neither
    white space nor a quote. *)
Ltac char_split :=
  repeat (match goal with
          | |- context [(?a <=? ?b)%N] => destruct (N.leb_spec a b)
          | |- context [(?a =? ?b)%N] => destruct (N.eqb_spec a b)
          | H : context [(?a <=? ?b)%N] |- _ => destruct (N.leb_spec a b)
          | H : context [(?a =? ?b)%N] |- _ => destruct (N.eqb_spec a b)
          end; simpl in *; try lia; try done).

Lemma letter_a_is_value x :
  accepts true (Lit (ch "a")) x = true → accepts true api_key_value x = true.
Proof.
  intros Hx. assert (x = 97 ∨ x = 65)%N as [-> | ->]; [|done..].
  revert Hx. change (ch "a") with 97%N.
  unfold accepts, in_set, variants, existsb, item_has, lower, upper.
  char_split.
Qed.

Lemma api_key_first x s n :
  match_here (compile pat_api_key) (x :: s) = Some n →
  accepts true api_key_value x = true.
Proof.
  intros Hm. apply letter_a_is_value.
  change (compile pat_api_key) with
    (Atom (accepts true (Lit (ch "a"))) 1 (Some 1)
     :: tail (compile pat_api_key)) in Hm.
  apply match_here_first in Hm; [done|simpl; lia].
Qed.

Ltac in_list :=
  repeat first [apply list_elem_of_here | apply list_elem_of_further].

Lemma pattern_nonempty p : p ∈ _PATTERNS → 0 < min_length (compile p).
Proof. apply (proj1 (Forall_forall _ _) patterns_nonempty). Qed.

Lemma pattern_inside_fails p :
  p ∈ _PATTERNS → inside_fails (compile p) REDACTED.
Proof. apply (proj1 (Forall_forall _ _) patterns_inside_fail). Qed.

Lemma pattern_avoids_bracket p :
  p ∈ [pat_openai; pat_ghp; pat_github_pat; pat_bearer; pat_aws] →
  avoids (compile p) bracket.
Proof. apply (proj1 (Forall_forall _ _) patterns_avoid_bracket). Qed.

Lemma redact_str_passes s : redact_str s = fold_left pass _PATTERNS s.
Proof. reflexivity. Qed.

Lemma pass_spec p t : pass t p = sub_go (compile p) REDACTED 0 t.
Proof. reflexivity. Qed.

Lemma passes_app l1 l2 s :
  fold_left pass (l1 ++ l2) s = fold_left pass l2 (fold_left pass l1 s).
Proof. apply fold_left_app. Qed.

(** Where a pattern stands in the list: the patterns behind it, and
    that its own matches hold no bracket unless it is the last. *)
Lemma pattern_position p :
  p ∈ _PATTERNS →
  ∃ l1 l2, _PATTERNS = l1 ++ p :: l2
           ∧ Forall (λ q, q ∈ _PATTERNS) l2
           ∧ (p = pat_api_key ∨ avoids (compile p) bracket).
Proof.
  intros Hp. unfold _PATTERNS in *.
  repeat (apply elem_of_cons in Hp as [->|Hp]);
    [ exists [], [pat_ghp; pat_github_pat; pat_bearer; pat_aws; pat_api_key]
    | exists [pat_openai], [pat_github_pat; pat_bearer; pat_aws; pat_api_key]
    | exists [pat_openai; pat_ghp], [pat_bearer; pat_aws; pat_api_key]
    | exists [pat_openai; pat_ghp; pat_github_pat], [pat_aws; pat_api_key]
    | exists [pat_openai; pat_ghp; pat_github_pat; pat_bearer], [pat_api_key]
    | exists [pat_openai; pat_ghp; pat_github_pat; pat_bearer; pat_aws], []
    | by apply elem_of_nil in Hp ];
    (split; [done|]); (split; [repeat constructor; in_list|]);
    try (by left); right; apply pattern_avoids_bracket; in_list.
Qed.

(** The pass of a pattern removes every match of that pattern. *)
Lemma pass_cleans p t : p ∈ _PATTERNS → clean (compile p) (pass t p).
Proof.
  intros Hp. rewrite pass_spec.
  destruct (pattern_position p Hp) as (_ & _ & _ & _ & [->|Hav]).
  - rewrite api_key_split.
    apply (sub_go_cleans_trailing REDACTED bracket REDACTED_head).
    + vm_compute. lia.
    + rewrite <- api_key_split. by apply pattern_inside_fails.
    + apply api_key_prefix_avoids_bracket.
    + intros x s n. rewrite <- api_key_split. apply api_key_first.
  - apply (sub_go_cleans REDACTED bracket REDACTED_head);
      [by apply pattern_nonempty|by apply pattern_inside_fails|done].
Qed.

(** Later passes bring no match of an earlier pattern back. *)
Lemma passes_keep_clean q ps t :
  inside_fails q REDACTED → avoids q bracket →
  Forall (λ p, p ∈ _PATTERNS) ps →
  clean q t → clean q (fold_left pass ps t).
Proof.
  intros Hin Hav Hps. revert t.
  induction Hps as [|p ps Hp _ IH]; intros t Hc; [done|].
  simpl. apply IH. rewrite pass_spec.
  apply (sub_go_keeps_clean REDACTED bracket REDACTED_head); [|done..].
  by apply pattern_nonempty.
Qed.

(** The output of [redact_str] holds no match of any pattern. *)
Lemma redact_str_clean p s : p ∈ _PATTERNS → clean (compile p) (redact_str s).
Proof.
  intros Hp. rewrite redact_str_passes.
  destruct (pattern_position p Hp) as (l1 & l2 & Heq & Hl2 & Hlast).
  rewrite Heq, passes_app. cbn [fold_left].
  destruct Hlast as [->|Hav].
  - assert (l2 = []) as ->; [|by apply pass_cleans].
    unfold _PATTERNS in Heq.
    apply (f_equal length) in Heq as Hlen.
    rewrite length_app in Hlen. simpl in Hlen.
    do 6 (destruct l1 as [|? l1]; [by destruct l2|]).
    simpl in Hlen. lia.
  - apply passes_keep_clean;
      [by apply pattern_inside_fails|done..|by apply pass_cleans].
Qed.

Lemma infix_pass t p :
  p ∈ _PATTERNS → infix REDACTED t → infix REDACTED (pass t p).
Proof.
  intros Hp Ht. rewrite pass_spec.
  destruct (sub_go_unchanged_or_replaced (compile p) REDACTED
              (pattern_nonempty p Hp) t) as [->|?]; done.
Qed.

Lemma infix_passes ps t :
  Forall (λ p, p ∈ _PATTERNS) ps →
  infix REDACTED t → infix REDACTED (fold_left pass ps t).
Proof.
  intros Hps. revert t. induction Hps as [|p ps Hp _ IH]; intros t Ht; [done|].
  simpl. apply IH. by apply infix_pass.
Qed.

(** A match of any pattern of the list ends up as a sentinel. *)
Lemma passes_replace ps t p j n :
  Forall (λ p, p ∈ _PATTERNS) ps → p ∈ ps →
  match_here (compile p) (drop j t) = Some n →
  infix REDACTED (fold_left pass ps t).
Proof.
  intros Hps. revert t.
  induction Hps as [|q ps Hq Hps IH]; intros t Hp Hm.
  { by apply elem_of_nil in Hp. }
  simpl.
  destruct (sub_go_unchanged_or_replaced (compile q) REDACTED
              (pattern_nonempty q Hq) t) as [Hsame|Hrep].
  - apply elem_of_cons in Hp as [->|Hp].
    + apply infix_passes; [done|]. rewrite pass_spec.
      by eapply sub_go_match; [apply pattern_nonempty|].
    + rewrite pass_spec, Hsame. by apply IH.
  - apply infix_passes; [done|]. by rewrite pass_spec.
Qed.

Lemma passes_unchanged ps t :
  Forall (λ p, p ∈ _PATTERNS ∧ clean (compile p) t) ps →
  fold_left pass ps t = t.
Proof.
  induction 1 as [|q ps [Hq Hc] _ IH]; [done|].
  simpl. rewrite pass_spec, sub_go_clean; [done| |done].
  by apply pattern_nonempty.
Qed.

End RedactFacts.

(** C1.  A string in which some pattern of [_PATTERNS] matches comes out
    of [redact_str] with the sentinel [[REDACTED]] in it and without the
    matched substring; a string in which no pattern matches anywhere comes
    out unchanged. *)
Theorem redact_str_spec (s : str) :
  (∀ p j n,
      p ∈ _PATTERNS →
      Re.match_here (Re.compile p) (drop j s) = Some n →
      infix REDACTED (redact_str s)
      ∧ ¬ infix (take n (drop j s)) (redact_str s))
  ∧ ((∀ p j, p ∈ _PATTERNS → Re.match_here (Re.compile p) (drop j s) = None) →
     redact_str s = s).
Proof.
  split.
  - intros p j n Hp Hm. split.
    + rewrite RedactFacts.redact_str_passes.
      eapply RedactFacts.passes_replace; [|done..].
      by apply Forall_forall.
    + apply ReFacts.match_here_sound in Hm as [_ Hl].
      eapply ReFacts.clean_no_infix; [|done].
      by apply RedactFacts.redact_str_clean.
  - intros Hc. rewrite RedactFacts.redact_str_passes.
    apply RedactFacts.passes_unchanged, Forall_forall.
    intros p Hp. split; [done|]. intros j. by apply Hc.
Qed.

Lemma redact_str_spec_witness :
  (infix REDACTED (redact_str (codes "key sk-abcdefghijklmnopqrstu0123 end"))
   ∧ ¬ infix (codes "sk-abcdefghijklmnopqrstu0123")
         (redact_str (codes "key sk-abcdefghijklmnopqrstu0123 end")))
  ∧ redact_str (codes "plain") = codes "plain".
Proof.
  split.
  - apply (proj1 (redact_str_spec (codes "key sk-abcdefghijklmnopqrstu0123 end"))
             pat_openai 4 28).
    + unfold _PATTERNS. apply list_elem_of_here.
    + reflexivity.
  - apply (proj2 (redact_str_spec (codes "plain"))).
    intros p j Hp. unfold _PATTERNS in Hp.
    repeat (apply elem_of_cons in Hp as [->|Hp]);
      try (by apply elem_of_nil in Hp);
      do 5 (destruct j as [|j]; [reflexivity|]); by destruct j.
Defined.

(** [redact_str] on a few strings.  A value in quotes is not taken by the
    assignment pattern, and a key that follows [api_key=] is replaced
    twice, by the key pattern and then together with the assignment. *)
Example redact_str_openai :
  redact_str (codes "key sk-abcdefghijklmnopqrstuv.") = codes "key [REDACTED].".
Proof. vm_compute. reflexivity. Qed.

Example redact_str_bearer :
  redact_str (codes "Authorization: bearer  abc.def==")
  = codes "Authorization: [REDACTED]".
Proof. vm_compute. reflexivity. Qed.

Example redact_str_aws :
  redact_str (codes "id AKIAABCDEFGHIJKLMNOPQRS") = codes "id [REDACTED]QRS".
Proof. vm_compute. reflexivity. Qed.

Example redact_str_assignment :
  redact_str (codes "API_KEY = sk-abcdefghijklmnopqrstuv; api-key='zzz'")
  = codes "[REDACTED] api-key='zzz'".
Proof. vm_compute. reflexivity. Qed.

Example redact_str_short_key :
  redact_str (codes "ghp_tooShort123") = codes "ghp_tooShort123".
Proof. vm_compute. reflexivity. Qed.

(** ** [redact_any] *)

(** Induction over values, through the lists and mappings they hold. *)
Lemma value_ind (P : value → Prop) :
  P VNone → (∀ b, P (VBool b)) → (∀ n, P (VInt n)) → (∀ s, P (VStr s)) →
  (∀ l, Forall P l → P (VList l)) →
  (∀ d, Forall (λ kv, P kv.2) d → P (VDict d)) →
  (∀ t, P (VOther t)) →
  ∀ v, P v.
Proof.
  intros HN HB HI HS HL HD HO.
  fix IH 1. intros [| b | n | s | l | d | t].
  - exact HN.
  - apply HB.
  - apply HI.
  - apply HS.
  - apply HL. induction l as [|x l IHl]; constructor; [apply IH|apply IHl].
  - apply HD. induction d as [|[k x] d IHd]; constructor; [apply IH|apply IHd].
  - apply HO.
Qed.

Arguments redact_str : simpl never.
Arguments codes : simpl never.

Lemma redact_any_redacted_of v : redacted_of v (redact_any v).
Proof.
  induction v as [| b | n | s | l IH | d IH | t] using value_ind;
    simpl; try constructor.
  - induction IH; simpl; constructor; auto.
  - induction IH; simpl; constructor; auto.
Qed.

Lemma strings_of_redact_any v :
  strings_of (redact_any v) = map redact_str (strings_of v).
Proof.
  induction v as [| b | n | s | l IH | d IH | t] using value_ind; simpl; try done.
  - induction IH as [|x l Hx _ IHl]; simpl; [done|].
    by rewrite map_app, Hx, IHl.
  - induction IH as [|x l Hx _ IHl]; simpl; [done|].
    by rewrite map_app, Hx, IHl.
Qed.

Lemma keys_of_redact_any v : keys_of (redact_any v) = keys_of v.
Proof.
  induction v as [| b | n | s | l IH | d IH | t] using value_ind; simpl; try done.
  - induction IH as [|x l Hx _ IHl]; simpl; [done|]. by rewrite Hx, IHl.
  - induction IH as [|x l Hx _ IHl]; simpl; [done|]. by rewrite Hx, IHl.
Qed.

Lemma redact_any_fully_redacted v : fully_redacted (redact_any v).
Proof.
  intros s p Hs Hp. rewrite strings_of_redact_any in Hs.
  apply list_elem_of_In, in_map_iff in Hs as (s0 & <- & _).
  by apply RedactFacts.redact_str_clean.
Qed.

(** C9.  [redact_any] is a total function on JSON-like values that
    computes the redaction its description asks for: [None] gives
    [None], a list is redacted element by element, a mapping value by
    value with its keys as they are, at every depth, and a value that is
    neither a string, a list nor a mapping comes back unchanged. *)
Theorem redact_any_total (x : value) :
  (∃ y, redact_any x = y ∧ redacted_of x y ∧ keys_of y = keys_of x)
  ∧ redact_any VNone = VNone
  ∧ (∀ l, redact_any (VList l) = VList (map redact_any l))
  ∧ (∀ d, ∃ d', redact_any (VDict d) = VDict d'
            ∧ map fst d' = map fst d
            ∧ map snd d' = map redact_any (map snd d))
  ∧ (∀ b, redact_any (VBool b) = VBool b)
  ∧ (∀ n, redact_any (VInt n) = VInt n)
  ∧ (∀ t, redact_any (VOther t) = VOther t).
Proof.
  split; [|repeat split].
  - exists (redact_any x).
    split; [done|]. split; [apply redact_any_redacted_of|apply keys_of_redact_any].
  - intros d. exists (redact_dict d). split; [done|].
    unfold redact_dict. split; by rewrite !map_map.
Qed.

(** ** Running the handlers *)

Lemma as_EventType_name ty : as_EventType (VStr (EventType_name ty)) = Some ty.
Proof. destruct ty; vm_compute; reflexivity. Qed.

Lemma as_EventType_Some s ty :
  as_EventType (VStr s) = Some ty → s = EventType_name ty.
Proof.
  unfold as_EventType. intros Hf. apply find_some in Hf as [_ Hf].
  by apply bool_decide_eq_true_1 in Hf.
Qed.

Lemma as_EventType_None s ty : as_EventType (VStr s) = None → s ≠ EventType_name ty.
Proof.
  intros Hf ->. rewrite as_EventType_name in Hf. done.
Qed.

Lemma redact_type_name ty : redact_str (EventType_name ty) = EventType_name ty.
Proof. destruct ty; vm_compute; reflexivity. Qed.

Lemma redact_envelope ev :
  redact_event_dict (to_afc_format ev)
  = envelope (VInt (ts ev)) (VStr (redact_str (run_id ev)))
      (VStr (redact_str (span_id ev)))
      (opt_str (redact_str <$> parent_span_id ev))
      (VStr (EventType_name (type ev))) (VDict (redact_dict (payload ev))).
Proof.
  unfold redact_event_dict, to_afc_format, envelope. simpl.
  rewrite redact_type_name. by destruct (parent_span_id ev).
Qed.

(** Lookups in the registry after the updates the handlers make. *)
Create HintDb registry.

Lemma lookup_alter_run (m : gmap str RunState) rid f r :
  m !! rid = Some r → alter f rid m !! rid = Some (f r).
Proof. intros Hr. by rewrite lookup_alter_eq, Hr. Qed.

Lemma lookup_update_run (m : gmap str RunState) rid k r :
  m !! rid = Some r → <[k := r]> m !! rid = Some r.
Proof.
  intros Hr. destruct (decide (k = rid)) as [->|Hne].
  - apply lookup_insert_eq.
  - by rewrite lookup_insert_ne.
Qed.

Lemma lookup_insert_run (m : gmap str RunState) rid r :
  <[rid := r]> m !! rid = Some r.
Proof. apply lookup_insert_eq. Qed.

#[local] Hint Resolve lookup_alter_run lookup_update_run lookup_insert_run : registry.

Section HandlerFacts.
Context `{Host}.
Local Open Scope handler_scope.

Implicit Types (rs : gmap str RunState) (es : gmap str (list AdapterEvent)).
Implicit Types (c i : nat) (g : graph_state).

Lemma bind_ok {A B} (m : Handler A) (k : A → Handler B) w a w' :
  m w = (Ok a, w') → bind m k w = k a w'.
Proof. unfold bind. by intros ->. Qed.

Lemma bind_raise {A B} (m : Handler A) (k : A → Handler B) w e w' :
  m w = (Raise e, w') → bind m k w = (Raise e, w').
Proof. unfold bind. by intros ->. Qed.

Lemma setattr_run rid f rs es c i g :
  setattr rid f (mkWorld (mkStore rs es) c i g)
  = (Ok tt, mkWorld (mkStore (alter f rid rs) es) c i g).
Proof. reflexivity. Qed.

Lemma now_ms_run rs es c i g :
  now_ms (mkWorld (mkStore rs es) c i g)
  = (Ok (time_ms c), mkWorld (mkStore rs es) (S c) i g).
Proof. reflexivity. Qed.

Lemma new_id_run rs es c i g :
  new_id (mkWorld (mkStore rs es) c i g)
  = (Ok (uuid4 i), mkWorld (mkStore rs es) c (S i) g).
Proof. reflexivity. Qed.

Lemma STORE_get_run_ok rid r rs es c i g :
  rs !! rid = Some r →
  STORE_get_run rid (mkWorld (mkStore rs es) c i g)
  = (Ok r, mkWorld (mkStore rs es) c i g).
Proof.
  intros Hr. unfold STORE_get_run, bind, get_store. simpl. by rewrite Hr.
Qed.

Lemma getattr_run {A} rid (f : RunState → A) r rs es c i g :
  rs !! rid = Some r →
  getattr rid f (mkWorld (mkStore rs es) c i g)
  = (Ok (f r), mkWorld (mkStore rs es) c i g).
Proof.
  intros Hr. unfold getattr. by erewrite bind_ok by by apply STORE_get_run_ok.
Qed.

Lemma STORE_update_run_ok rid r rs es c i g :
  rs !! rid = Some r →
  STORE_update_run rid (mkWorld (mkStore rs es) c i g)
  = (Ok tt, mkWorld (mkStore (<[runId r := r]> rs) es) c i g).
Proof.
  intros Hr. unfold STORE_update_run.
  by erewrite bind_ok by by apply STORE_get_run_ok.
Qed.

Lemma _require_run_ok rid r rs es c i g :
  rs !! rid = Some r →
  _require_run rid (mkWorld (mkStore rs es) c i g)
  = (Ok rid, mkWorld (mkStore rs es) c i g).
Proof.
  intros Hr. unfold _require_run, STORE_has_run, bind at 1 2, get_store, ret.
  simpl. rewrite Hr. rewrite bool_decide_eq_true_2 by eauto.
  by erewrite bind_ok by by apply STORE_get_run_ok.
Qed.

Lemma _require_run_missing rid rs es c i g :
  rs !! rid = None →
  _require_run rid (mkWorld (mkStore rs es) c i g)
  = (Raise (HTTPException 404 (codes "run not found")),
     mkWorld (mkStore rs es) c i g).
Proof.
  intros Hr. unfold _require_run, STORE_has_run, bind, get_store, ret.
  simpl. rewrite Hr. rewrite bool_decide_eq_false_2; [done|].
  by intros [? ?].
Qed.

Lemma envelope_fields (a b x d e f : value) :
  subscript (envelope a b x d e f) "ts" = ret a
  ∧ subscript (envelope a b x d e f) "run_id" = ret b
  ∧ subscript (envelope a b x d e f) "span_id" = ret x
  ∧ dict_get (envelope a b x d e f) "parent_span_id" = d
  ∧ subscript (envelope a b x d e f) "type" = ret e
  ∧ subscript (envelope a b x d e f) "payload" = ret f.
Proof. repeat split; vm_compute; reflexivity. Qed.

Lemma emit_event_run rid sid ty pl parent rs es c i g :
  emit_event rid sid (EventType_name ty) pl parent (mkWorld (mkStore rs es) c i g)
  = (Ok (emitted c rid sid ty pl parent),
     mkWorld (mkStore rs (append_event rid (emitted c rid sid ty pl parent) es))
       (S c) i g).
Proof.
  unfold emit_event. unfold bind at 1. unfold now_ms at 1.
  unfold bind at 1. unfold as_type at 1. rewrite as_EventType_name.
  unfold ret at 1. rewrite redact_envelope.
  cbn [ts run_id span_id parent_span_id type payload STORE clock_reads].
  destruct (envelope_fields (VInt (time_ms c)) (VStr (redact_str rid))
              (VStr (redact_str sid)) (opt_str (redact_str <$> parent))
              (VStr (EventType_name ty)) (VDict (redact_dict pl)))
    as (-> & -> & -> & -> & -> & ->).
  unfold bind, ret, as_int, as_str, as_dict, as_type.
  rewrite as_EventType_name.
  destruct parent; reflexivity.
Qed.

Lemma emit_event_invalid rid sid type pl parent rs es c i g :
  as_EventType (VStr type) = None →
  emit_event rid sid type pl parent (mkWorld (mkStore rs es) c i g)
  = (Raise (Exception (codes "type")), mkWorld (mkStore rs es) (S c) i g).
Proof.
  intros Hty. unfold emit_event. unfold bind at 1. unfold now_ms at 1.
  unfold bind at 1. unfold as_type at 1. by rewrite Hty.
Qed.

Lemma new_RunState_run rid st thread root rs es c i g :
  new_RunState rid st thread root (mkWorld (mkStore rs es) c i g)
  = (Ok (mkRunState rid st (time_ms c) (time_ms (S c)) thread root None None),
     mkWorld (mkStore rs es) (S (S c)) i g).
Proof. reflexivity. Qed.

Lemma STORE_create_run_run run rs es c i g :
  STORE_create_run run (mkWorld (mkStore rs es) c i g)
  = (Ok tt, mkWorld (mkStore (<[runId run := run]> rs) (<[runId run := []]> es))
              c i g).
Proof. reflexivity. Qed.

Lemma STORE_list_events_run rid rs es c i g :
  STORE_list_events rid (mkWorld (mkStore rs es) c i g)
  = (Ok (default [] (es !! rid)), mkWorld (mkStore rs es) c i g).
Proof. reflexivity. Qed.

(** *** The graph: what its emissions leave in the log *)

Lemma emit_all_run ems rs es c i g :
  emit_all ems (mkWorld (mkStore rs es) c i g)
  = (outcome (emissions_fault ems),
     mkWorld (mkStore rs (emissions_log ems c es).2) (emissions_log ems c es).1 i g).
Proof.
  revert es c. induction ems as [|e ems IH]; intros es c; [done|].
  cbn [emit_all emissions_fault emissions_log].
  destruct (as_EventType (VStr (em_type e))) as [ty|] eqn:Hty.
  - apply as_EventType_Some in Hty. rewrite Hty.
    erewrite bind_ok by apply emit_event_run. apply IH.
  - by erewrite bind_raise by by apply emit_event_invalid.
Qed.

Lemma GRAPH_invoke_run input thread rs es c i g :
  GRAPH_invoke input thread (mkWorld (mkStore rs es) c i g)
  = (outcome (graph_fault input thread g),
     mkWorld (mkStore rs (graph_log input thread c es g).2)
       (graph_log input thread c es g).1 i (graph_next input thread g)).
Proof.
  unfold GRAPH_invoke, graph_fault, graph_log, graph_next.
  cbn [GRAPH STORE clock_reads ids_drawn].
  destruct (graph_invoke input thread g) as [[ems out] g'].
  cbn [fst snd]. unfold bind. rewrite emit_all_run.
  destruct (emissions_fault ems); [done|]. by destruct out.
Qed.

Lemma GRAPH_invoke_ok input thread rs es c i g :
  graph_fault input thread g = None →
  GRAPH_invoke input thread (mkWorld (mkStore rs es) c i g)
  = (Ok tt,
     mkWorld (mkStore rs (graph_log input thread c es g).2)
       (graph_log input thread c es g).1 i (graph_next input thread g)).
Proof. intros Hf. by rewrite GRAPH_invoke_run, Hf. Qed.

Lemma GRAPH_invoke_raise input thread e rs es c i g :
  graph_fault input thread g = Some e →
  GRAPH_invoke input thread (mkWorld (mkStore rs es) c i g)
  = (Raise e,
     mkWorld (mkStore rs (graph_log input thread c es g).2)
       (graph_log input thread c es g).1 i (graph_next input thread g)).
Proof. intros Hf. by rewrite GRAPH_invoke_run, Hf. Qed.

(** The log only grows. *)
Lemma append_event_self rid ev es :
  default [] (append_event rid ev es !! rid) = default [] (es !! rid) ++ [ev].
Proof. unfold append_event. by rewrite lookup_insert_eq. Qed.

Lemma append_event_other rid rid' ev es :
  rid ≠ rid' → append_event rid ev es !! rid' = es !! rid'.
Proof. intros Hne. unfold append_event. by rewrite lookup_insert_ne. Qed.

Lemma append_event_prefix rid rid' ev es :
  default [] (es !! rid') `prefix_of` default [] (append_event rid ev es !! rid').
Proof.
  destruct (decide (rid = rid')) as [->|Hne].
  - rewrite append_event_self. by apply prefix_app_r.
  - rewrite append_event_other by done. reflexivity.
Qed.

Lemma emissions_log_prefix ems c es rid :
  default [] (es !! rid) `prefix_of` default [] ((emissions_log ems c es).2 !! rid).
Proof.
  revert c es.
  induction ems as [|e ems IH]; intros c es; cbn [emissions_log snd]; [reflexivity|].
  destruct (as_EventType (VStr (em_type e))); [|reflexivity].
  etrans; [|apply IH]. apply append_event_prefix.
Qed.

Lemma graph_log_prefix input thread c es g rid :
  default [] (es !! rid)
  `prefix_of` default [] ((graph_log input thread c es g).2 !! rid).
Proof. apply emissions_log_prefix. Qed.

Lemma alter_known rs rid f r :
  rs !! rid = Some r → alter f rid rs = <[rid := f r]> rs.
Proof.
  intros Hr. apply map_eq. intros k. destruct (decide (rid = k)) as [->|Hne].
  - by rewrite lookup_alter_eq, lookup_insert_eq, Hr.
  - by rewrite lookup_alter_ne, lookup_insert_ne.
Qed.

Lemma lookup_store_run rid r' rs : store_run rid r' rs !! rid = Some r'.
Proof. unfold store_run. apply lookup_update_run, lookup_insert_eq. Qed.

Lemma lookup_store_run_ne rid r' rs k :
  k ≠ rid → k ≠ runId r' → store_run rid r' rs !! k = rs !! k.
Proof. intros H1 H2. unfold store_run. by rewrite !lookup_insert_ne. Qed.

End HandlerFacts.

(** One step of a handler: the first operation of a sequence is run and
    the rest goes on in the world it leaves. *)
Ltac run_step :=
  lazymatch goal with
  | |- setattr _ _ _ = _ => apply setattr_run
  | |- now_ms _ = _ => apply now_ms_run
  | |- new_id _ = _ => apply new_id_run
  | |- new_RunState _ _ _ _ _ = _ => apply new_RunState_run
  | |- STORE_create_run _ _ = _ => apply STORE_create_run_run
  | |- STORE_list_events _ _ = _ => apply STORE_list_events_run
  | |- STORE_get_run _ _ = _ => eapply STORE_get_run_ok; eauto with registry
  | |- STORE_update_run _ _ = _ => eapply STORE_update_run_ok; eauto with registry
  | |- getattr _ _ _ = _ => eapply getattr_run; eauto with registry
  | |- _require_run _ _ = _ => eapply _require_run_ok; eauto with registry
  | |- GRAPH_invoke _ _ _ = (Ok _, _) => eapply GRAPH_invoke_ok; eauto
  | |- GRAPH_invoke _ _ _ = (Raise _, _) => eapply GRAPH_invoke_raise; eauto
  | |- emit_event _ _ (codes "LOG") _ _ _ = _ => apply (emit_event_run _ _ LOG)
  | |- emit_event _ _ (codes "INTERRUPT_REQUIRED") _ _ _ = _ =>
      apply (emit_event_run _ _ INTERRUPT_REQUIRED)
  | |- emit_event _ _ (codes "RESUMED") _ _ _ = _ =>
      apply (emit_event_run _ _ RESUMED)
  | |- emit_event _ _ (codes "ERROR") _ _ _ = _ => apply (emit_event_run _ _ ERROR)
  | |- emit_event _ _ (codes "CANCELLED") _ _ _ = _ =>
      apply (emit_event_run _ _ EV_CANCELLED)
  end.

Ltac hstep := erewrite bind_ok by run_step; cbv beta iota.
Ltac hraise := erewrite bind_raise by run_step; cbv beta iota.
Ltac hraise_missing := erewrite bind_raise by by apply _require_run_missing.

Ltac norm_runs :=
  repeat (erewrite alter_known by eauto with registry;
          rewrite ?insert_insert_eq).

Section HandlerSpecs.
Context `{Host}.

(** *** [cancel_run], case by case *)
Lemma cancel_run_spec rid rs es c i g :
  cancel_run rid (mkWorld (mkStore rs es) c i g)
  = match rs !! rid with
    | None =>
        (Raise (HTTPException 404 (codes "run not found")),
         mkWorld (mkStore rs es) c i g)
    | Some r =>
        if bool_decide (status r = COMPLETED ∨ status r = FAILED) then
          (Raise (HTTPException 409
                    (codes "cannot cancel terminal run: "
                     ++ RunStatus_name (status r))),
           mkWorld (mkStore rs es) c i g)
        else if bool_decide (status r = CANCELLED) then
          (Ok {| cancel_success := true |}, mkWorld (mkStore rs es) c i g)
        else
          let r' := with_updatedAtMs (time_ms c) (with_status CANCELLED r) in
          (Ok {| cancel_success := true |},
           mkWorld
             (mkStore (store_run rid r' rs)
                (append_event rid
                   (emitted (S c) rid (rootSpanId r) EV_CANCELLED
                      [(codes "msg", VStr (codes "cancelled"))] None)
                   es))
             (S (S c)) i g)
    end.
Proof.
  unfold cancel_run. destruct (rs !! rid) as [r|] eqn:Hr.
  - do 2 hstep.
    destruct (bool_decide (status r = COMPLETED ∨ status r = FAILED)); [done|].
    destruct (bool_decide (status r = CANCELLED)); [done|].
    do 6 hstep. norm_runs. reflexivity.
  - by hraise_missing.
Qed.

(** *** [resume_run], case by case *)

Lemma resume_run_spec rid req rs es c i g :
  resume_run rid req (mkWorld (mkStore rs es) c i g)
  = match rs !! rid with
    | None =>
        (Raise (HTTPException 404 (codes "run not found")),
         mkWorld (mkStore rs es) c i g)
    | Some r =>
        if bool_decide (status r ≠ WAITING_APPROVAL) then
          (Raise (HTTPException 409
                    (codes "run not waiting approval: "
                     ++ RunStatus_name (status r))),
           mkWorld (mkStore rs es) c i g)
        else
          let root := rootSpanId r in
          let input := resume_input req rid root in
          let es1 :=
            append_event rid (emitted c rid root RESUMED (resume_payload req) None)
              es in
          let c2 := (graph_log input (threadId r) (S c) es1 g).1 in
          let es2 := (graph_log input (threadId r) (S c) es1 g).2 in
          let g' := graph_next input (threadId r) g in
          match graph_fault input (threadId r) g with
          | None =>
              let r' := with_updatedAtMs (time_ms c2)
                          (with_interrupt None (with_status COMPLETED r)) in
              (Ok {| resume_success := true |},
               mkWorld (mkStore (store_run rid r' rs) es2) (S c2) i g')
          | Some e =>
              let r' := with_updatedAtMs (time_ms c2)
                          (with_error (Some (exn_str e)) (with_status FAILED r)) in
              (Raise e,
               mkWorld
                 (mkStore (store_run rid r' rs)
                    (append_event rid
                       (emitted (S c2) rid root ERROR (error_payload e) None) es2))
                 (S (S c2)) i g')
          end
    end.
Proof.
  unfold resume_run. destruct (rs !! rid) as [r|] eqn:Hr.
  - do 2 hstep.
    destruct (bool_decide (status r ≠ WAITING_APPROVAL)); [done|].
    do 2 hstep. unfold try_except.
    destruct (graph_fault (resume_input req rid (rootSpanId r)) (threadId r) g)
      as [e|] eqn:Hf.
    + do 2 hstep. hraise. do 7 hstep. norm_runs. reflexivity.
    + do 8 hstep. norm_runs. reflexivity.
  - by hraise_missing.
Qed.

(** *** [create_run] *)

Lemma create_run_spec req rs es c i g :
  create_run req (mkWorld (mkStore rs es) c i g)
  = let rid := uuid4 i in
    let root := uuid4 (S i) in
    let input := create_input rid root in
    let running :=
      mkRunState rid RUNNING (time_ms c) (time_ms (S (S c))) rid root None None in
    let es1 :=
      append_event rid
        (emitted (S (S (S c))) rid root LOG
           [(codes "msg", VStr (codes "run created"))] None)
        (<[rid := []]> es) in
    let c2 := (graph_log input rid (S (S (S (S c)))) es1 g).1 in
    let es2 := (graph_log input rid (S (S (S (S c)))) es1 g).2 in
    let g' := graph_next input rid g in
    match graph_fault input rid g with
    | None =>
        let r' := with_updatedAtMs (time_ms c2)
                    (with_interrupt (Some approval_gate)
                       (with_status WAITING_APPROVAL running)) in
        (Ok (mkRunCreateResponse rid WAITING_APPROVAL),
         mkWorld
           (mkStore (<[rid := r']> rs)
              (append_event rid
                 (emitted (S c2) rid root INTERRUPT_REQUIRED approval_gate None)
                 es2))
           (S (S c2)) (S (S i)) g')
    | Some e =>
        let r' := with_updatedAtMs (time_ms c2)
                    (with_error (Some (exn_str e)) (with_status FAILED running)) in
        (Ok (mkRunCreateResponse rid FAILED),
         mkWorld
           (mkStore (<[rid := r']> rs)
              (append_event rid
                 (emitted (S c2) rid root ERROR (error_payload e) None) es2))
           (S (S c2)) (S (S i)) g')
    end.
Proof.
  unfold create_run. do 4 hstep. cbn [runId]. do 5 hstep. unfold try_except.
  destruct (graph_fault (create_input (uuid4 i) (uuid4 (S i))) (uuid4 i) g)
    as [e|] eqn:Hf.
  - hstep. hraise. do 7 hstep. norm_runs. reflexivity.
  - do 10 hstep. norm_runs. reflexivity.
Qed.

End HandlerSpecs.

(** ** The event log *)

Section EventLog.
Context `{Host}.

Lemma emitted_envelope now rid sid ty pl parent :
  to_afc_format (emitted now rid sid ty pl parent)
  = redact_any (to_afc_format (mkAdapterEvent (time_ms now) rid sid parent ty pl)).
Proof.
  unfold to_afc_format, emitted. simpl. rewrite redact_type_name.
  by destruct parent.
Qed.

(** C2.  Whatever event [emit_event] is given, the event it stores, and
    that [STORE.list_events] returns from then on as the last of the
    run, has as its envelope the recursive redaction of the envelope of
    the event it was given: no string of it, at any depth of the
    payload, holds a match of a secret pattern.  An event whose type is
    not an [EventType] is rejected and nothing is stored. *)
Theorem emit_event_stores_redacted rid sid type pl parent w :
  match emit_event rid sid type pl parent w with
  | (Ok ev2, w') =>
      ∃ ty,
        type = EventType_name ty
        ∧ to_afc_format ev2
          = redact_any
              (to_afc_format
                 (mkAdapterEvent (time_ms (clock_reads w)) rid sid parent ty pl))
        ∧ payload ev2 = redact_dict pl
        ∧ fully_redacted (to_afc_format ev2)
        ∧ events_of rid w' = events_of rid w ++ [ev2]
        ∧ (STORE_list_events rid w').1 = Ok (events_of rid w ++ [ev2])
  | (Raise _, w') => (∀ ty, type ≠ EventType_name ty) ∧ STORE w' = STORE w
  end.
Proof.
  destruct w as [[rs es] c i g].
  destruct (as_EventType (VStr type)) as [ty|] eqn:Hty.
  - apply as_EventType_Some in Hty as ->. rewrite emit_event_run.
    exists ty. split; [done|]. split; [apply emitted_envelope|].
    split; [done|]. split.
    { rewrite emitted_envelope. apply redact_any_fully_redacted. }
    unfold events_of. rewrite STORE_list_events_run.
    cbn [STORE events fst]. by rewrite append_event_self.
  - rewrite emit_event_invalid by done. split; [|done].
    intros ty. by apply as_EventType_None.
Qed.

End EventLog.

(** ** The coordinator *)

Section CoordinatorFacts.
Context `{Host}.

(** C3.  [resume_run] on a run that exists and is not in
    [WAITING_APPROVAL] raises HTTP 409 and leaves the world as it was: no
    event is appended and the run keeps its status, interrupt, error and
    time stamps. *)
Theorem resume_run_conflict rid req w r :
  runs (STORE w) !! rid = Some r →
  status r ≠ WAITING_APPROVAL →
  resume_run rid req w
  = (Raise (HTTPException 409
              (codes "run not waiting approval: " ++ RunStatus_name (status r))),
     w).
Proof.
  destruct w as [[rs es] c i g]. cbn [STORE runs]. intros Hr Hst.
  rewrite resume_run_spec, Hr. by rewrite bool_decide_eq_true_2.
Qed.

(** C4.  [cancel_run] raises HTTP 409 exactly when the run exists with
    status [COMPLETED] or [FAILED].  On a run in [PENDING], [RUNNING] or
    [WAITING_APPROVAL], two calls in a row both return success; the first
    sets the status to [CANCELLED] and appends one [CANCELLED] event, the
    second changes nothing. *)
Theorem cancel_run_idempotent rid w :
  ((∃ detail, (cancel_run rid w).1 = Raise (HTTPException 409 detail))
   ↔ (status_of rid w = Some COMPLETED ∨ status_of rid w = Some FAILED))
  ∧ (status_of rid w ∈ [Some PENDING; Some RUNNING; Some WAITING_APPROVAL] →
     let first := cancel_run rid w in
     let second := cancel_run rid first.2 in
     first.1 = Ok {| cancel_success := true |}
     ∧ second.1 = Ok {| cancel_success := true |}
     ∧ second.2 = first.2
     ∧ status_of rid first.2 = Some CANCELLED
     ∧ ∃ ev, type ev = EV_CANCELLED
             ∧ events_of rid first.2 = events_of rid w ++ [ev]
             ∧ events_of rid second.2 = events_of rid w ++ [ev]).
Proof.
  destruct w as [[rs es] c i g]. unfold status_of, events_of.
  cbn [STORE runs events]. rewrite cancel_run_spec.
  destruct (rs !! rid) as [r|] eqn:Hr; cbn [fmap option_fmap option_map].
  - split.
    + destruct (status r); cbn; split;
        first [ by eauto | by intros [? [=]] | by intros [[=]|[=]] ].
    + intros Hst.
      assert (bool_decide (status r = COMPLETED ∨ status r = FAILED) = false
              ∧ bool_decide (status r = CANCELLED) = false) as [-> ->].
      { rewrite !elem_of_cons, elem_of_nil in Hst.
        destruct Hst as [[= ->]|[[= ->]|[[= ->]|[]]]]; by split. }
      cbn zeta. cbn [fst snd]. rewrite cancel_run_spec, lookup_store_run.
      cbn [STORE runs events fst snd status with_updatedAtMs with_status].
      rewrite lookup_store_run.
      rewrite (bool_decide_eq_false_2 (CANCELLED = COMPLETED ∨ CANCELLED = FAILED))
        by (by intros [|]).
      rewrite (bool_decide_eq_true_2 (CANCELLED = CANCELLED)) by done.
      cbn [STORE runs events fst snd]. repeat split.
      eexists. rewrite append_event_self. by repeat split.
  - split; [cbn; split; [by intros [? [=]]|by intros [[=]|[=]]]|].
    rewrite !elem_of_cons, elem_of_nil. by intros [[=]|[[=]|[[=]|[]]]].
Qed.

Lemma last_append_event rid ev es :
  last (default [] (append_event rid ev es !! rid)) = Some ev.
Proof. rewrite append_event_self. apply last_snoc. Qed.

(** C5.  [create_run] always returns a response, never an exception, and
    the status it reports is the status the run is left in, which is
    never [RUNNING].  When the call of the graph raises, the run is left
    [FAILED] with the message of the exception as its error, the last
    event of the run is an [ERROR] event carrying the (redacted) message,
    and the response reports [FAILED]; when it returns, the run is left
    in [WAITING_APPROVAL]. *)
Theorem create_run_absorbs_faults req w :
  let rid := uuid4 (ids_drawn w) in
  let root := uuid4 (S (ids_drawn w)) in
  let res := create_run req w in
  (∃ resp r',
      res.1 = Ok resp
      ∧ resp_runId resp = rid
      ∧ runs (STORE res.2) !! rid = Some r'
      ∧ status r' = resp_status resp
      ∧ resp_status resp ≠ RUNNING)
  ∧ match graph_fault (create_input rid root) rid (GRAPH w) with
    | Some e =>
        res.1 = Ok (mkRunCreateResponse rid FAILED)
        ∧ (∃ r', runs (STORE res.2) !! rid = Some r'
                 ∧ status r' = FAILED ∧ error r' = Some (exn_str e))
        ∧ (∃ ev, last (events_of rid res.2) = Some ev
                 ∧ type ev = ERROR
                 ∧ payload ev = redact_dict (error_payload e))
    | None =>
        res.1 = Ok (mkRunCreateResponse rid WAITING_APPROVAL)
        ∧ (∃ r', runs (STORE res.2) !! rid = Some r'
                 ∧ status r' = WAITING_APPROVAL
                 ∧ interrupt r' = Some approval_gate)
    end.
Proof.
  destruct w as [[rs es] c i g]. cbn [STORE runs events ids_drawn GRAPH].
  cbn zeta. unfold events_of. rewrite create_run_spec. cbn zeta.
  destruct (graph_fault (create_input (uuid4 i) (uuid4 (S i))) (uuid4 i) g)
    as [e|]; cbn [fst snd STORE runs events]; rewrite lookup_insert_eq.
  - split; [by eexists _, _|]. split; [done|]. split; [by eexists|].
    eexists. by rewrite last_append_event.
  - split; [by eexists _, _|]. split; [done|]. by eexists.
Qed.

(** C6.  [resume_run] on a run in [WAITING_APPROVAL] appends a [RESUMED]
    event that carries the request (approved flag and redacted notes)
    and calls the graph.  When the graph returns, the run is left
    [COMPLETED] with no interrupt and the handler returns success; when
    the graph raises, the run is left [FAILED] with the message as its
    error, an [ERROR] event is the last of the run, and the handler
    raises the same exception. *)
Theorem resume_run_propagates_faults rid req w r :
  runs (STORE w) !! rid = Some r →
  status r = WAITING_APPROVAL →
  let root := rootSpanId r in
  let res := resume_run rid req w in
  let resumed := emitted (clock_reads w) rid root RESUMED (resume_payload req) None in
  type resumed = RESUMED
  ∧ payload resumed
    = [ (codes "approved", VBool (approved req));
        (codes "notes", opt_str (redact_str <$> notes req)) ]
  ∧ (events_of rid w ++ [resumed]) `prefix_of` events_of rid res.2
  ∧ match graph_fault (resume_input req rid root) (threadId r) (GRAPH w) with
    | None =>
        res.1 = Ok {| resume_success := true |}
        ∧ ∃ r', runs (STORE res.2) !! rid = Some r'
                ∧ status r' = COMPLETED ∧ interrupt r' = None
    | Some e =>
        res.1 = Raise e
        ∧ (∃ r', runs (STORE res.2) !! rid = Some r'
                 ∧ status r' = FAILED ∧ error r' = Some (exn_str e))
        ∧ (∃ ev, last (events_of rid res.2) = Some ev
                 ∧ type ev = ERROR
                 ∧ payload ev = redact_dict (error_payload e))
    end.
Proof.
  destruct w as [[rs es] c i g].
  cbn [STORE runs events clock_reads GRAPH]. intros Hr Hst. cbn zeta.
  unfold events_of. rewrite resume_run_spec, Hr.
  rewrite bool_decide_eq_false_2 by (by intros []). cbn zeta.
  split; [done|]. split; [unfold resume_payload; by destruct (notes req)|].
  destruct (graph_fault (resume_input req rid (rootSpanId r)) (threadId r) g)
    as [e|]; cbn [fst snd STORE runs events]; rewrite lookup_store_run.
  - split.
    { etrans; [|apply append_event_prefix]. rewrite <- append_event_self.
      apply graph_log_prefix. }
    split; [done|]. split; [by eexists|].
    eexists. by rewrite last_append_event.
  - split.
    { rewrite <- append_event_self. apply graph_log_prefix. }
    split; [done|]. by eexists.
Qed.

(** C10.  On a run in [WAITING_APPROVAL], whatever the request says, in
    particular with [approved] false as with [approved] true, a call of
    [resume_run] during which the graph returns leaves the run
    [COMPLETED]: the record of the run is the old one with status
    [COMPLETED], no interrupt and a new time stamp, and holds nothing of
    the request.  The handler itself appends one event, the [RESUMED]
    event whose payload records the flag; the rest of the log is what
    the graph emitted. *)
Theorem resume_run_ignores_approved rid req w r :
  runs (STORE w) !! rid = Some r →
  status r = WAITING_APPROVAL →
  graph_fault (resume_input req rid (rootSpanId r)) (threadId r) (GRAPH w) = None →
  let res := resume_run rid req w in
  let resumed :=
    emitted (clock_reads w) rid (rootSpanId r) RESUMED (resume_payload req) None in
  res.1 = Ok {| resume_success := true |}
  ∧ (∃ t, runs (STORE res.2) !! rid
          = Some (with_updatedAtMs t (with_interrupt None (with_status COMPLETED r))))
  ∧ status_of rid res.2 = Some COMPLETED
  ∧ assoc (codes "approved") (payload resumed) = Some (VBool (approved req))
  ∧ events (STORE res.2)
    = (graph_log (resume_input req rid (rootSpanId r)) (threadId r)
         (S (clock_reads w))
         (append_event rid resumed (events (STORE w))) (GRAPH w)).2.
Proof.
  destruct w as [[rs es] c i g].
  cbn [STORE runs events clock_reads GRAPH]. intros Hr Hst Hf. cbn zeta.
  unfold status_of. rewrite resume_run_spec, Hr.
  rewrite bool_decide_eq_false_2 by (by intros []). cbn zeta. rewrite Hf.
  cbn [fst snd STORE runs events]. rewrite lookup_store_run.
  split; [done|]. split; [by eexists|]. by repeat split.
Qed.

(** *** Sequences of requests *)

Lemma get_run_world rid w : (get_run rid w).2 = w.
Proof.
  destruct w as [[rs es] c i g]. unfold get_run.
  destruct (rs !! rid) as [r|] eqn:Hr.
  - by do 2 hstep.
  - by hraise_missing.
Qed.

Lemma get_events_world rid w : (get_events rid w).2 = w.
Proof.
  destruct w as [[rs es] c i g]. unfold get_events.
  destruct (rs !! rid) as [r|] eqn:Hr.
  - by do 2 hstep.
  - by hraise_missing.
Qed.

(** What one request does to the registry: nothing, or it stores one run
    under its own identifier, which is either the identifier drawn for a
    new run or that of a run that was not in a terminal state. *)
Lemma step_registry o w :
  registry_consistent w →
  ids_drawn w ≤ ids_drawn (step o w)
  ∧ (runs (STORE (step o w)) = runs (STORE w)
     ∨ ∃ rid r',
         runs (STORE (step o w)) = <[rid := r']> (runs (STORE w))
         ∧ runId r' = rid
         ∧ (rid = uuid4 (ids_drawn w)
            ∨ ∃ r, runs (STORE w) !! rid = Some r ∧ ¬ terminal (status r))).
Proof.
  destruct w as [[rs es] c i g]. unfold registry_consistent.
  cbn [STORE runs ids_drawn]. intros Hcons.
  assert (∀ (A : Type) (res : result A),
            i ≤ ids_drawn (res, mkWorld (mkStore rs es) c i g).2
            ∧ (runs (STORE (res, mkWorld (mkStore rs es) c i g).2) = rs
               ∨ ∃ rid r',
                   runs (STORE (res, mkWorld (mkStore rs es) c i g).2)
                   = <[rid := r']> rs
                   ∧ runId r' = rid
                   ∧ (rid = uuid4 i
                      ∨ ∃ r, rs !! rid = Some r ∧ ¬ terminal (status r))))
    as Hsame by (intros A res; split; [done|by left]).
  destruct o as [req | rid req | rid | rid | rid]; cbn [step].
  - rewrite create_run_spec. cbn zeta.
    destruct (graph_fault _ _ g); cbn [snd STORE runs ids_drawn];
      (split; [lia|]); right; eexists _, _; (split; [done|]);
      (split; [done|]); by left.
  - rewrite resume_run_spec. destruct (rs !! rid) as [r|] eqn:Hr; [|apply Hsame].
    destruct (bool_decide (status r ≠ WAITING_APPROVAL)) eqn:Hst; [apply Hsame|].
    apply bool_decide_eq_false_1 in Hst.
    assert (status r = WAITING_APPROVAL) as Hw.
    { destruct (decide (status r = WAITING_APPROVAL)); [done|by destruct Hst]. }
    pose proof (Hcons _ _ Hr) as Hid. cbn zeta.
    destruct (graph_fault _ _ g); cbn [snd STORE runs ids_drawn];
      (split; [lia|]); right; eexists rid, _; unfold store_run;
      cbn [runId with_updatedAtMs with_error with_interrupt with_status];
      rewrite Hid, insert_insert_eq; (split; [done|]); (split; [done|]);
      right; exists r; (split; [done|]); rewrite Hw; by intros [|[|]].
  - rewrite cancel_run_spec. destruct (rs !! rid) as [r|] eqn:Hr; [|apply Hsame].
    destruct (bool_decide (status r = COMPLETED ∨ status r = FAILED)) eqn:Hst;
      [apply Hsame|].
    destruct (bool_decide (status r = CANCELLED)) eqn:Hst'; [apply Hsame|].
    apply bool_decide_eq_false_1 in Hst, Hst'.
    pose proof (Hcons _ _ Hr) as Hid. cbn zeta. cbn [snd STORE runs ids_drawn].
    split; [lia|]. right. eexists rid, _. unfold store_run.
    cbn [runId with_updatedAtMs with_status]. rewrite Hid, insert_insert_eq.
    split; [done|]. split; [done|]. right. exists r. split; [done|].
    unfold terminal. tauto.
  - rewrite get_run_world. cbn [STORE runs ids_drawn]. split; [done|by left].
  - rewrite get_events_world. cbn [STORE runs ids_drawn]. split; [done|by left].
Qed.

Lemma step_consistent o w : registry_consistent w → registry_consistent (step o w).
Proof.
  intros Hcons. unfold registry_consistent.
  destruct (step_registry o w Hcons) as [_ [->|(rid & r' & -> & Hid & _)]];
    [done|].
  intros k r. destruct (decide (rid = k)) as [->|Hne].
  - rewrite lookup_insert_eq. by intros [= <-].
  - rewrite lookup_insert_ne by done. apply Hcons.
Qed.

Lemma steps_consistent os w : registry_consistent w → registry_consistent (steps os w).
Proof.
  revert w. induction os as [|o os IH]; intros w Hw; [done|].
  apply IH. by apply step_consistent.
Qed.

(** C7.  Once the status of a run is [COMPLETED], [FAILED] or
    [CANCELLED], no sequence of requests (create, resume, cancel, get,
    list events, on this run or on any other) changes it, in a registry
    that stores every run under its own identifier and as long as the
    identifier of the run is not drawn again for a new run. *)
Theorem terminal_status_is_final os w rid st :
  registry_consistent w →
  (∀ k, ids_drawn w ≤ k → uuid4 k ≠ rid) →
  status_of rid w = Some st →
  terminal st →
  status_of rid (steps os w) = Some st.
Proof.
  intros Hcons Hfresh Hst Hterm. revert w Hcons Hfresh Hst.
  induction os as [|o os IH]; intros w Hcons Hfresh Hst; [done|].
  cbn [steps fold_left]. apply IH.
  - by apply step_consistent.
  - destruct (step_registry o w Hcons) as [Hids _].
    intros k Hk. apply Hfresh. lia.
  - destruct (step_registry o w Hcons)
      as [_ [Hsame|(rid' & r' & Heq & _ & Hwhich)]];
      unfold status_of in *; [by rewrite Hsame|].
    rewrite Heq. destruct (decide (rid' = rid)) as [->|Hne];
      [|by rewrite lookup_insert_ne].
    exfalso. destruct Hwhich as [Hnew|(r & Hr & Hnot)].
    + by apply (Hfresh (ids_drawn w)).
    + rewrite Hr in Hst. injection Hst as <-. done.
Qed.

(** *** Which identifiers have events *)

Lemma append_event_dom rid ev es k :
  is_Some (append_event rid ev es !! k) → k = rid ∨ is_Some (es !! k).
Proof.
  destruct (decide (rid = k)) as [->|Hne]; [by left|].
  rewrite append_event_other by done. by right.
Qed.

Lemma emissions_log_dom ems c es k :
  is_Some ((emissions_log ems c es).2 !! k) →
  is_Some (es !! k) ∨ Exists (λ e, em_run_id e = k) ems.
Proof.
  revert c es. induction ems as [|e ems IH]; intros c es; cbn [emissions_log];
    [by left|].
  destruct (as_EventType (VStr (em_type e))); [|by left].
  intros Hk. destruct (IH _ _ Hk) as [Hk'|Hk'].
  - apply append_event_dom in Hk' as [->|Hk']; [right; by left|by left].
  - right. by right.
Qed.

Lemma graph_log_dom input thread c es g rid k :
  graph_emits_under_run_id →
  assoc (codes "_run_id") input = Some (VStr rid) →
  is_Some ((graph_log input thread c es g).2 !! k) →
  k = rid ∨ is_Some (es !! k).
Proof.
  intros Hgraph Hin Hk. apply emissions_log_dom in Hk as [Hk|Hk]; [by right|].
  left. specialize (Hgraph input thread g rid Hin).
  apply Exists_exists in Hk as (e & He & <-).
  rewrite Forall_forall in Hgraph. by apply Hgraph.
Qed.

Lemma store_run_dom rid r' rs k :
  k = rid ∨ is_Some (rs !! k) → is_Some (store_run rid r' rs !! k).
Proof.
  intros [->|Hk]; [by rewrite lookup_store_run|].
  unfold store_run. rewrite !lookup_insert_is_Some'. auto.
Qed.

Lemma emit_event_within_registry rid sid type pl parent w :
  is_Some (runs (STORE w) !! rid) →
  log_within_registry w →
  log_within_registry (emit_event rid sid type pl parent w).2.
Proof.
  destruct w as [[rs es] c i g]. unfold log_within_registry.
  cbn [STORE runs events]. intros Hrid Hinv.
  destruct (as_EventType (VStr type)) as [ty|] eqn:Hty.
  - apply as_EventType_Some in Hty as ->. rewrite emit_event_run.
    cbn [snd STORE runs events]. intros k Hk.
    apply append_event_dom in Hk as [->|Hk]; auto.
  - by rewrite emit_event_invalid.
Qed.

Lemma step_within_registry o w :
  graph_emits_under_run_id →
  log_within_registry w → log_within_registry (step o w).
Proof.
  destruct w as [[rs es] c i g]. unfold log_within_registry.
  cbn [STORE runs events]. intros Hgraph Hinv.
  destruct o as [req | rid req | rid | rid | rid]; cbn [step].
  - rewrite create_run_spec. cbn zeta.
    destruct (graph_fault _ _ g); cbn [snd STORE runs events]; intros k Hk;
      rewrite lookup_insert_is_Some';
      apply append_event_dom in Hk as [->|Hk]; [by left| |by left|];
      (eapply graph_log_dom in Hk as [->|Hk]; [by left| |done|reflexivity]);
      (apply append_event_dom in Hk as [->|Hk]; [by left|]);
      (apply lookup_insert_is_Some' in Hk as [->|Hk]; [by left|]);
      right; by apply Hinv.
  - rewrite resume_run_spec. destruct (rs !! rid) as [r|] eqn:Hr; [|done].
    destruct (bool_decide (status r ≠ WAITING_APPROVAL)); [done|]. cbn zeta.
    destruct (graph_fault _ _ g); cbn [snd STORE runs events]; intros k Hk;
      apply store_run_dom;
      [apply append_event_dom in Hk as [->|Hk]; [by left|]|];
      (eapply graph_log_dom in Hk as [->|Hk]; [by left| |done|reflexivity]);
      (apply append_event_dom in Hk as [->|Hk]; [by left|]);
      right; by apply Hinv.
  - rewrite cancel_run_spec. destruct (rs !! rid) as [r|] eqn:Hr; [|done].
    destruct (bool_decide (status r = COMPLETED ∨ status r = FAILED)); [done|].
    destruct (bool_decide (status r = CANCELLED)); [done|].
    cbn zeta. cbn [snd STORE runs events]. intros k Hk.
    apply store_run_dom.
    apply append_event_dom in Hk as [->|Hk]; [by left|]. right. by apply Hinv.
  - by rewrite get_run_world.
  - by rewrite get_events_world.
Qed.

(** C8, as the code has it.  [emit_event] appends under the identifier
    it is given without looking at the registry: under an identifier
    that has neither a run nor events it starts a sequence of its own.
    The handlers nevertheless append under registered identifiers only:
    an append under an identifier with a run keeps every event sequence
    within the registry, and so does every request ([create_run]
    registers the run before anything is emitted, [resume_run] and
    [cancel_run] look the run up first) as long as the nodes of the
    graph emit under the [_run_id] they are given. *)
Theorem appends_stay_within_registry :
  (∀ rid sid type pl parent w,
      is_Some (runs (STORE w) !! rid) →
      log_within_registry w →
      log_within_registry (emit_event rid sid type pl parent w).2)
  ∧ (graph_emits_under_run_id →
     ∀ o w, log_within_registry w → log_within_registry (step o w))
  ∧ (∀ rid sid ty pl parent w,
        runs (STORE w) !! rid = None →
        events (STORE w) !! rid = None →
        let res := emit_event rid sid (EventType_name ty) pl parent w in
        ∃ ev, res.1 = Ok ev
              ∧ events (STORE res.2) !! rid = Some [ev]
              ∧ runs (STORE res.2) !! rid = None).
Proof.
  split; [apply emit_event_within_registry|].
  split; [intros Hgraph o w; by apply step_within_registry|].
  intros rid sid ty pl parent [[rs es] c i g]. cbn [STORE runs events].
  intros Hr He. cbn zeta. rewrite emit_event_run. cbn [fst snd STORE runs events].
  eexists. split; [done|]. split; [|done].
  unfold append_event. by rewrite lookup_insert_eq, He.
Qed.

End CoordinatorFacts.

(** ** The handlers on the host of [poc_host] *)

(** C8 as stated fails: [plan_node] run on a state without [_run_id]
    emits under the identifier [unknown], and on an empty store
    [emit_event] accepts that and appends under a run that does not
    exist. *)
Lemma append_under_unregistered_run : ¬ append_requires_registered_run.
Proof.
  intros Hclaim.
  destruct (Hclaim (poc_host None) (codes "unknown") (codes "unknown")
              (codes "LOG") [(codes "msg", VStr (codes "plan"))] None
              (poc_world None) _ _
              (emit_event_run (H:=poc_host None) _ _ LOG _ _ _ _ _ _ _))
    as [[r Hr] _].
  cbn [poc_world STORE runs empty_store] in Hr. by rewrite lookup_empty in Hr.
Qed.

Lemma sample_world_run fault st :
  runs (STORE (sample_world fault st)) !! codes "r1" = Some (sample_run st).
Proof. apply lookup_singleton_eq. Defined.

Lemma resume_run_conflict_witness :
  runs (STORE (sample_world None COMPLETED)) !! codes "r1"
  = Some (sample_run COMPLETED)
  ∧ status (sample_run COMPLETED) ≠ WAITING_APPROVAL
  ∧ resume_run (codes "r1") {| approved := true; notes := None |}
      (sample_world None COMPLETED)
    = (Raise (HTTPException 409
                (codes "run not waiting approval: " ++ codes "COMPLETED")),
       sample_world None COMPLETED).
Proof.
  split; [apply sample_world_run|]. split; [discriminate|].
  apply (resume_run_conflict (H:=poc_host None) (codes "r1") _ _
           (sample_run COMPLETED)).
  - apply sample_world_run.
  - discriminate.
Defined.

Lemma sample_world_status fault st :
  status_of (codes "r1") (sample_world fault st) = Some st.
Proof. unfold status_of. by rewrite sample_world_run. Defined.

Lemma cancel_run_idempotent_witness :
  let w := sample_world None WAITING_APPROVAL in
  let first := cancel_run (H:=poc_host None) (codes "r1") w in
  let second := cancel_run (H:=poc_host None) (codes "r1") first.2 in
  status_of (codes "r1") w ∈ [Some PENDING; Some RUNNING; Some WAITING_APPROVAL]
  ∧ first.1 = Ok {| cancel_success := true |}
  ∧ second.1 = Ok {| cancel_success := true |}
  ∧ second.2 = first.2.
Proof.
  intros w first second.
  assert (status_of (codes "r1") w
          ∈ [Some PENDING; Some RUNNING; Some WAITING_APPROVAL]) as Hst.
  { unfold w. rewrite sample_world_status.
    apply list_elem_of_further, list_elem_of_further, list_elem_of_here. }
  split; [exact Hst|].
  destruct (proj2 (cancel_run_idempotent (H:=poc_host None) (codes "r1") w) Hst)
    as (H1 & H2 & H3 & _).
  by repeat split.
Defined.

Lemma resume_run_propagates_faults_witness :
  let w := sample_world (Some (codes "boom")) WAITING_APPROVAL in
  runs (STORE w) !! codes "r1" = Some (sample_run WAITING_APPROVAL)
  ∧ status (sample_run WAITING_APPROVAL) = WAITING_APPROVAL
  ∧ (resume_run (H:=poc_host (Some (codes "boom"))) (codes "r1")
       {| approved := true; notes := None |} w).1
    = Raise (Exception (codes "boom")).
Proof.
  intros w. split; [apply sample_world_run|]. split; [reflexivity|].
  destruct (resume_run_propagates_faults (H:=poc_host (Some (codes "boom")))
              (codes "r1") {| approved := true; notes := None |} w
              (sample_run WAITING_APPROVAL)
              (sample_world_run _ _) eq_refl)
    as (_ & _ & _ & Hfault).
  exact (proj1 Hfault).
Defined.

Lemma resume_run_ignores_approved_witness :
  let w := sample_world None WAITING_APPROVAL in
  let res := resume_run (H:=poc_host None) (codes "r1")
               {| approved := false; notes := None |} w in
  runs (STORE w) !! codes "r1" = Some (sample_run WAITING_APPROVAL)
  ∧ res.1 = Ok {| resume_success := true |}
  ∧ status_of (codes "r1") res.2 = Some COMPLETED.
Proof.
  intros w res. split; [apply sample_world_run|].
  destruct (resume_run_ignores_approved (H:=poc_host None)
              (codes "r1") {| approved := false; notes := None |} w
              (sample_run WAITING_APPROVAL)
              (sample_world_run _ _) eq_refl)
    as (H1 & _ & H3 & _); [vm_compute; reflexivity|].
  by split.
Defined.

Lemma sample_world_consistent fault st :
  registry_consistent (sample_world fault st).
Proof.
  intros k r Hr. cbn [sample_world STORE runs] in Hr.
  apply lookup_singleton_Some in Hr as [<- <-]. reflexivity.
Defined.

Lemma poc_ids_fresh fault k : uuid4 (Host:=poc_host fault) k ≠ codes "r1".
Proof.
  intros Heq. apply (f_equal head) in Heq. vm_compute in Heq. discriminate.
Defined.

Lemma terminal_status_is_final_witness :
  let w := sample_world None CANCELLED in
  let os := [ Resume (codes "r1") {| approved := true; notes := None |};
              Cancel (codes "r1");
              Create {| prompt := None |};
              Resume (codes "id-") {| approved := true; notes := None |};
              Get (codes "r1");
              Events (codes "r1") ] in
  registry_consistent w
  ∧ status_of (codes "r1") w = Some CANCELLED
  ∧ status_of (codes "r1") (steps (H:=poc_host None) os w) = Some CANCELLED.
Proof.
  intros w os. split; [apply sample_world_consistent|].
  split; [apply sample_world_status|].
  apply (terminal_status_is_final (H:=poc_host None) os w (codes "r1") CANCELLED).
  - apply sample_world_consistent.
  - intros k _. apply poc_ids_fresh.
  - apply sample_world_status.
  - right. right. reflexivity.
Defined.

Lemma assoc_app_l k (l1 l2 : dict) v :
  assoc k l1 = Some v → assoc k (l1 ++ l2) = Some v.
Proof.
  unfold assoc. induction l1 as [|[k' v'] l1 IH]; [done|]. simpl.
  destruct (bool_decide (k' = k)); [done|]. apply IH.
Defined.

Lemma state_id_run_id (state : dict) rid :
  assoc (codes "_run_id") state = Some (VStr rid) → state_id state "_run_id" = rid.
Proof. unfold state_id. by intros ->. Defined.

Lemma poc_graph_emits : graph_emits_under_run_id (H:=poc_host None).
Proof.
  intros input thread g rid Hin. cbn [graph_invoke poc_host poc_invoke].
  match goal with |- context [match ?x with _ => _ end] => destruct x as [saved|] end;
    cbn [fst].
  - pose proof (state_id_run_id _ _ (assoc_app_l _ _ saved _ Hin)) as Hid.
    unfold continue_node, complete_node. cbn [app].
    repeat (apply Forall_cons_2; [exact Hid|]). apply Forall_nil_2.
  - pose proof (state_id_run_id _ _ Hin) as Hid. unfold plan_node.
    repeat (apply Forall_cons_2; [exact Hid|]). apply Forall_nil_2.
Defined.

Lemma poc_world_within_registry fault : log_within_registry (poc_world fault).
Proof.
  intros k [x Hx]. cbn [poc_world STORE events empty_store] in Hx.
  by rewrite lookup_empty in Hx.
Defined.

Lemma appends_stay_within_registry_witness :
  graph_emits_under_run_id (H:=poc_host None)
  ∧ log_within_registry (poc_world None)
  ∧ log_within_registry
      (step (H:=poc_host None) (Create {| prompt := None |}) (poc_world None))
  ∧ ∃ ev, events
            (STORE (emit_event (H:=poc_host None) (codes "unknown") (codes "s")
                      (codes "LOG") [] None (poc_world None)).2)
          !! codes "unknown" = Some [ev].
Proof.
  split; [apply poc_graph_emits|]. split; [apply poc_world_within_registry|].
  destruct (appends_stay_within_registry (H:=poc_host None)) as (_ & Hstep & Hnew).
  split.
  - apply Hstep; [apply poc_graph_emits|apply poc_world_within_registry].
  - destruct (Hnew (codes "unknown") (codes "s") LOG [] None (poc_world None))
      as (ev & _ & Hev & _); [apply lookup_empty..|].
    by exists ev.
Defined.

(** The registry of a fresh process is consistent, and so is every
    registry the handlers reach from it. *)
Lemma poc_world_consistent fault : registry_consistent (poc_world fault).
Proof.
  intros k r Hr. cbn [poc_world STORE runs empty_store] in Hr.
  by rewrite lookup_empty in Hr.
Qed.

Lemma reachable_consistent fault os :
  registry_consistent (steps (H:=poc_host fault) os (poc_world fault)).
Proof. apply steps_consistent, poc_world_consistent. Qed.

(** The handlers on the sample host: a run is created and pauses at the
    gate, is resumed and completes; with a graph that raises, the run is
    created as [FAILED]. *)
Example poc_create_then_resume :
  let created := create_run (H:=poc_host None) {| prompt := None |} (poc_world None) in
  let resumed := resume_run (H:=poc_host None) (codes "id-")
                   {| approved := true; notes := None |} created.2 in
  created.1 = Ok (mkRunCreateResponse (codes "id-") WAITING_APPROVAL)
  ∧ map type (events_of (codes "id-") created.2)
    = [LOG; LOG; STATE_UPDATE; CHECKPOINT_SAVED; INTERRUPT_REQUIRED]
  ∧ resumed.1 = Ok {| resume_success := true |}
  ∧ status_of (codes "id-") resumed.2 = Some COMPLETED
  ∧ map type (events_of (codes "id-") resumed.2)
    = [LOG; LOG; STATE_UPDATE; CHECKPOINT_SAVED; INTERRUPT_REQUIRED;
       RESUMED; LOG; STATE_UPDATE; CHECKPOINT_SAVED; LOG; EV_COMPLETED].
Proof. vm_compute. repeat split. Qed.

Example poc_create_with_fault :
  let created := create_run (H:=poc_host (Some (codes "boom"))) {| prompt := None |}
                   (poc_world (Some (codes "boom"))) in
  created.1 = Ok (mkRunCreateResponse (codes "id-") FAILED)
  ∧ (error <$> runs (STORE created.2) !! codes "id-") = Some (Some (codes "boom"))
  ∧ map type (events_of (codes "id-") created.2) = [LOG; ERROR].
Proof. vm_compute. repeat split. Qed.

(** * Further properties of the code *)

(** ** [redact_str] and [redact_any], beyond the sentinel *)

(** X1.  Whatever the input, no pattern of [_PATTERNS] matches anywhere
    in the output of [redact_str]: the later passes bring nothing back
    that an earlier pass removed. *)
Theorem redact_str_leaves_no_match (s : str) :
  Forall (λ p, Re.clean (Re.compile p) (redact_str s)) _PATTERNS.
Proof. apply Forall_forall. intros p Hp. by apply RedactFacts.redact_str_clean. Qed.

(** X2.  The strings [redact_str] returns unchanged are exactly the
    strings in which no pattern matches. *)
Theorem redact_str_fixed_iff_clean (s : str) :
  redact_str s = s ↔ Forall (λ p, Re.clean (Re.compile p) s) _PATTERNS.
Proof.
  split.
  - intros Hs. rewrite <- Hs. apply Forall_forall. intros p Hp.
    by apply RedactFacts.redact_str_clean.
  - intros Hc. rewrite RedactFacts.redact_str_passes.
    apply RedactFacts.passes_unchanged, Forall_forall. intros p Hp.
    split; [done|]. by apply (proj1 (Forall_forall _ _) Hc).
Qed.

Lemma redact_str_twice (s : str) : redact_str (redact_str s) = redact_str s.
Proof.
  rewrite RedactFacts.redact_str_passes at 1.
  apply RedactFacts.passes_unchanged, Forall_forall. intros p Hp.
  split; [done|]. by apply RedactFacts.redact_str_clean.
Qed.

(** X3.  Redacting twice is redacting once. *)
Theorem redact_str_idempotent (s : str) :
  redact_str (redact_str s) = redact_str s.
Proof. apply redact_str_twice. Qed.

(** X4.  [redact_any] is idempotent on every value, through all its
    lists and mappings. *)
Theorem redact_any_idempotent (v : value) :
  redact_any (redact_any v) = redact_any v.
Proof.
  induction v as [| b | n | s | l IH | d IH | t] using value_ind; simpl; try done.
  - by rewrite redact_str_twice.
  - f_equal. rewrite map_map. apply map_ext_Forall. exact IH.
  - f_equal. rewrite map_map. apply map_ext_Forall.
    eapply Forall_impl; [exact IH|]. intros [k x] Hx. simpl in *. by rewrite Hx.
Qed.

(** X5.  After [redact_any], no string in value position, at any depth,
    holds a match of any pattern. *)
Theorem redact_any_leaves_no_match (v : value) : fully_redacted (redact_any v).
Proof.
  intros s p Hs Hp. rewrite strings_of_redact_any in Hs.
  apply list_elem_of_In, in_map_iff in Hs as (s0 & <- & _).
  by apply RedactFacts.redact_str_clean.
Qed.

(** The characters of the text of a UUID: decimal digits, the letters a
    to f, and the hyphen. *)
Definition is_uuid_char (x : char) : bool :=
  ((48 <=? x) && (x <=? 57) || (97 <=? x) && (x <=? 102) || (x =? 45))%N.

(** A string of the language of a pattern holds a character of every
    atom that takes at least one character. *)
Lemma lang_holds_atom r m (P : char → bool) :
  Re.lang r m →
  Exists (λ a, 0 < Re.least a ∧ ∀ x, P x = true → Re.cls a x = false) r →
  ¬ Forall (λ x, P x = true) m.
Proof.
  induction 1 as [|a r m1 m2 Hcls Hlo _ _ IH]; intros Hex Hall.
  - by apply Exists_nil in Hex.
  - apply Forall_app in Hall as [H1 H2].
    apply Exists_cons in Hex as [[Hpos Hrej]|Hex]; [|by apply IH].
    destruct m1 as [|x m1]; [simpl in Hlo; lia|].
    inversion Hcls; subst. inversion H1; subst.
    rewrite Hrej in *; done.
Qed.

(** The letters s and g, the letters r and p in either case, and the
    capital A are not UUID characters. *)
Lemma uuid_char_rejected (ic : bool) (c x : char) :
  (ic, c) ∈ [(false, 115); (false, 103); (true, 114); (true, 112); (false, 65)]%N →
  is_uuid_char x = true → Re.accepts ic (Re.Lit c) x = false.
Proof.
  intros Hc. repeat (apply elem_of_cons in Hc as [[= -> ->]|Hc]);
    [| | | | |by apply elem_of_nil in Hc];
    unfold is_uuid_char, Re.accepts, Re.in_set, Re.variants, existsb,
      Re.item_has, Re.lower, Re.upper;
    RedactFacts.char_split.
Qed.

Lemma uuid_text_clean p (s : str) :
  p ∈ _PATTERNS → Forall (λ x, is_uuid_char x = true) s →
  Re.clean (Re.compile p) s.
Proof.
  intros Hp Hs j.
  destruct (Re.match_here (Re.compile p) (drop j s)) as [n|] eqn:E; [|done].
  exfalso. apply ReFacts.match_here_sound in E as [_ Hl].
  apply (lang_holds_atom _ _ is_uuid_char Hl);
    [|apply Forall_take, Forall_drop, Hs].
  unfold _PATTERNS in Hp.
  repeat (apply elem_of_cons in Hp as [->|Hp]);
    [ apply Exists_cons_hd; split; [simpl; lia|]; intros x Hx;
      exact (uuid_char_rejected false 115 x ltac:(RedactFacts.in_list) Hx)
    | apply Exists_cons_hd; split; [simpl; lia|]; intros x Hx;
      exact (uuid_char_rejected false 103 x ltac:(RedactFacts.in_list) Hx)
    | apply Exists_cons_hd; split; [simpl; lia|]; intros x Hx;
      exact (uuid_char_rejected false 103 x ltac:(RedactFacts.in_list) Hx)
    | do 3 apply Exists_cons_tl; apply Exists_cons_hd; split; [simpl; lia|];
      intros x Hx;
      exact (uuid_char_rejected true 114 x ltac:(RedactFacts.in_list) Hx)
    | apply Exists_cons_hd; split; [simpl; lia|]; intros x Hx;
      exact (uuid_char_rejected false 65 x ltac:(RedactFacts.in_list) Hx)
    | apply Exists_cons_tl, Exists_cons_hd; split; [simpl; lia|]; intros x Hx;
      exact (uuid_char_rejected true 112 x ltac:(RedactFacts.in_list) Hx)
    | by apply elem_of_nil in Hp ].
Qed.

(** X6.  A string of UUID text (digits, a to f, hyphens), which is what
    [new_id] produces, is never touched by [redact_str]: an event built
    for such a run identifier keeps it. *)
Theorem redact_str_keeps_uuid_text (s : str) :
  Forall (λ x, is_uuid_char x = true) s → redact_str s = s.
Proof.
  intros Hs. rewrite RedactFacts.redact_str_passes.
  apply RedactFacts.passes_unchanged, Forall_forall.
  intros p Hp. split; [done|]. by apply uuid_text_clean.
Qed.

Lemma redact_str_keeps_uuid_text_witness :
  redact_str (codes "3f2b8c1e-9a4d-4e6f-8b0a-1c2d3e4f5a6b")
  = codes "3f2b8c1e-9a4d-4e6f-8b0a-1c2d3e4f5a6b".
Proof.
  apply redact_str_keeps_uuid_text.
  apply Forall_forall. intros x Hx.
  apply list_elem_of_In in Hx. vm_compute in Hx.
  repeat (destruct Hx as [<-|Hx]; [reflexivity|]). destruct Hx.
Defined.

(** ** [MemoryStore], method by method *)

Section StoreProperties.
Context `{Host}.

Lemma STORE_has_run_run rid rs es c i g :
  STORE_has_run rid (mkWorld (mkStore rs es) c i g)
  = (Ok (bool_decide (is_Some (rs !! rid))), mkWorld (mkStore rs es) c i g).
Proof. reflexivity. Qed.

(** X7.  After [STORE.create_run(run)], [get_run] returns that run,
    [has_run] is true and [list_events] is empty, whatever run and
    events the identifier had before; none of the three reads changes
    the store. *)
Theorem STORE_create_run_then_read run w :
  let w' := (STORE_create_run run w).2 in
  STORE_get_run (runId run) w' = (Ok run, w')
  ∧ STORE_has_run (runId run) w' = (Ok true, w')
  ∧ STORE_list_events (runId run) w' = (Ok [], w').
Proof.
  destruct w as [[rs es] c i g]. rewrite STORE_create_run_run. cbn [snd].
  split; [apply STORE_get_run_ok, lookup_insert_eq|]. split.
  - rewrite STORE_has_run_run, lookup_insert_eq.
    by rewrite bool_decide_eq_true_2 by eauto.
  - by rewrite STORE_list_events_run, lookup_insert_eq.
Qed.

(** X8.  For an identifier the store does not know, [get_run] raises
    (the [KeyError] of the dictionary), [has_run] is false, and
    [list_events] returns the empty list; the store is left as it is, in
    particular [list_events] creates no entry. *)
Theorem STORE_unknown_id rid w :
  runs (STORE w) !! rid = None →
  events (STORE w) !! rid = None →
  STORE_get_run rid w = (Raise (Exception rid), w)
  ∧ STORE_has_run rid w = (Ok false, w)
  ∧ STORE_list_events rid w = (Ok [], w).
Proof.
  destruct w as [[rs es] c i g]. cbn [STORE runs events]. intros Hr He.
  split; [|split].
  - unfold STORE_get_run, bind, get_store. cbn [STORE runs]. by rewrite Hr.
  - rewrite STORE_has_run_run, Hr. rewrite bool_decide_eq_false_2; [done|].
    by intros [? ?].
  - by rewrite STORE_list_events_run, He.
Qed.

(** X9.  [STORE.add_event(run_id, ev)] puts [ev] at the end of the
    sequence of [run_id], which [list_events] then returns in full and
    in order; the runs and the sequences of all other identifiers are
    untouched. *)
Theorem STORE_add_event_appends rid ev w :
  let w' := (STORE_add_event rid ev w).2 in
  STORE_list_events rid w' = (Ok (events_of rid w ++ [ev]), w')
  ∧ runs (STORE w') = runs (STORE w)
  ∧ ∀ rid', rid' ≠ rid → events (STORE w') !! rid' = events (STORE w) !! rid'.
Proof.
  destruct w as [[rs es] c i g]. unfold events_of, STORE_add_event, modify_store.
  cbn [snd STORE runs events]. split; [|split; [done|]].
  - by rewrite STORE_list_events_run, lookup_insert_eq.
  - intros rid' Hne. by rewrite lookup_insert_ne.
Qed.

(** X10.  [STORE.update_run] on a run that is already stored under its
    own identifier changes nothing: the handlers assign to the stored
    object itself, so the call that follows is redundant. *)
Theorem STORE_update_run_noop rid r w :
  runs (STORE w) !! rid = Some r →
  runId r = rid →
  STORE_update_run rid w = (Ok tt, w).
Proof.
  destruct w as [[rs es] c i g]. cbn [STORE runs]. intros Hr Hid.
  erewrite STORE_update_run_ok by done. by rewrite Hid, insert_id.
Qed.

(** ** [emit_event] *)

(** X11.  [emit_event] reads the clock once and touches nothing but the
    event sequence of the identifier it is given: the runs, the other
    sequences, the identifier counter and the graph stay as they are.
    The event it returns is the last of that sequence; it carries the
    clock reading as time stamp and the redacted run, span and parent
    identifiers, also when the sequence is stored under the identifier
    as given. *)
Theorem emit_event_frame rid sid type pl parent w :
  let res := emit_event rid sid type pl parent w in
  runs (STORE res.2) = runs (STORE w)
  ∧ (∀ rid', rid' ≠ rid → events (STORE res.2) !! rid' = events (STORE w) !! rid')
  ∧ clock_reads res.2 = S (clock_reads w)
  ∧ ids_drawn res.2 = ids_drawn w
  ∧ GRAPH res.2 = GRAPH w
  ∧ ∀ ev, res.1 = Ok ev →
          last (events_of rid res.2) = Some ev
          ∧ ts ev = time_ms (clock_reads w)
          ∧ run_id ev = redact_str rid
          ∧ span_id ev = redact_str sid
          ∧ parent_span_id ev = (redact_str <$> parent).
Proof.
  destruct w as [[rs es] c i g]. cbn zeta.
  destruct (as_EventType (VStr type)) as [ty|] eqn:Hty.
  - apply as_EventType_Some in Hty as ->. rewrite emit_event_run.
    unfold events_of. cbn [fst snd STORE runs events clock_reads ids_drawn GRAPH].
    split; [done|]. split; [intros rid' Hne; by apply append_event_other|].
    do 3 (split; [done|]). intros ev [= <-].
    split; [apply last_append_event|]. by repeat split.
  - rewrite emit_event_invalid by done.
    cbn [fst snd STORE runs events clock_reads ids_drawn GRAPH].
    by repeat split.
Qed.

End StoreProperties.

Lemma STORE_unknown_id_witness :
  STORE_has_run (H:=poc_host None) (codes "nobody") (poc_world None)
  = (Ok false, poc_world None)
  ∧ STORE_list_events (H:=poc_host None) (codes "nobody") (poc_world None)
    = (Ok [], poc_world None).
Proof.
  destruct (STORE_unknown_id (H:=poc_host None) (codes "nobody") (poc_world None))
    as (_ & H2 & H3); [apply lookup_empty..|].
  by split.
Defined.

Lemma STORE_update_run_noop_witness :
  runs (STORE (sample_world None RUNNING)) !! codes "r1" = Some (sample_run RUNNING)
  ∧ STORE_update_run (H:=poc_host None) (codes "r1") (sample_world None RUNNING)
    = (Ok tt, sample_world None RUNNING).
Proof.
  split; [apply sample_world_run|].
  apply (STORE_update_run_noop (H:=poc_host None) _ (sample_run RUNNING));
    [apply sample_world_run|reflexivity].
Defined.

(** ** The routes *)

Lemma redact_approval_gate : redact_dict approval_gate = approval_gate.
Proof. vm_compute. reflexivity. Qed.

Section RouteProperties.
Context `{Host}.

Lemma get_run_spec rid rs es c i g :
  get_run rid (mkWorld (mkStore rs es) c i g)
  = match rs !! rid with
    | Some r =>
        (Ok (mkRunInfoResponse (runId r) (status r) (createdAtMs r)
               (updatedAtMs r) (interrupt r) (error r)),
         mkWorld (mkStore rs es) c i g)
    | None =>
        (Raise (HTTPException 404 (codes "run not found")),
         mkWorld (mkStore rs es) c i g)
    end.
Proof.
  unfold get_run. destruct (rs !! rid) as [r|] eqn:Hr.
  - by do 2 hstep.
  - by hraise_missing.
Qed.

Lemma get_events_spec rid rs es c i g :
  get_events rid (mkWorld (mkStore rs es) c i g)
  = match rs !! rid with
    | Some r =>
        (Ok (map to_afc_format (default [] (es !! rid))),
         mkWorld (mkStore rs es) c i g)
    | None =>
        (Raise (HTTPException 404 (codes "run not found")),
         mkWorld (mkStore rs es) c i g)
    end.
Proof.
  unfold get_events. destruct (rs !! rid) as [r|] eqn:Hr.
  - by do 2 hstep.
  - by hraise_missing.
Qed.

(** X12.  For a run identifier that is not in the registry, [get_run],
    [get_events], [resume_run] and [cancel_run] all raise HTTP 404 with
    the detail [run not found] and change nothing, not even when the
    identifier has events in the log. *)
Theorem unknown_run_is_404 rid req w :
  runs (STORE w) !! rid = None →
  let not_found := HTTPException 404 (codes "run not found") in
  get_run rid w = (Raise not_found, w)
  ∧ get_events rid w = (Raise not_found, w)
  ∧ resume_run rid req w = (Raise not_found, w)
  ∧ cancel_run rid w = (Raise not_found, w).
Proof.
  destruct w as [[rs es] c i g]. cbn [STORE runs]. intros Hr. cbn zeta.
  by rewrite get_run_spec, get_events_spec, resume_run_spec, cancel_run_spec, Hr.
Qed.

(** X13.  For a run in the registry, [get_run] reports the six fields of
    the stored run and [get_events] the envelopes of the events of the
    run, in the order of the log; neither changes the world. *)
Theorem reads_report_the_store rid w r :
  runs (STORE w) !! rid = Some r →
  get_run rid w
  = (Ok (mkRunInfoResponse (runId r) (status r) (createdAtMs r) (updatedAtMs r)
           (interrupt r) (error r)), w)
  ∧ get_events rid w = (Ok (map to_afc_format (events_of rid w)), w).
Proof.
  destruct w as [[rs es] c i g]. unfold events_of. cbn [STORE runs events].
  intros Hr. by rewrite get_run_spec, get_events_spec, Hr.
Qed.

(** X14.  The log of a run that [create_run] has just created starts
    with the [LOG] event [run created], whatever events the identifier
    had before, goes on with what the graph emitted for the run, and
    ends with the [INTERRUPT_REQUIRED] event carrying the approval gate
    when the graph returned, with an [ERROR] event when it raised. *)
Theorem create_run_log req w :
  let rid := uuid4 (ids_drawn w) in
  let root := uuid4 (S (ids_drawn w)) in
  let res := create_run req w in
  ∃ mid closing,
    events_of rid res.2
    = emitted (S (S (S (clock_reads w)))) rid root LOG
        [(codes "msg", VStr (codes "run created"))] None
      :: mid ++ [closing]
    ∧ run_id closing = redact_str rid
    ∧ match graph_fault (create_input rid root) rid (GRAPH w) with
      | None => type closing = INTERRUPT_REQUIRED ∧ payload closing = approval_gate
      | Some e => type closing = ERROR
      end.
Proof.
  destruct w as [[rs es] c i g]. cbn [STORE runs events ids_drawn clock_reads GRAPH].
  cbn zeta. unfold events_of. rewrite create_run_spec. cbn zeta.
  set (rid := uuid4 i). set (root := uuid4 (S i)).
  set (first := emitted (S (S (S c))) rid root LOG _ None).
  pose proof (graph_log_prefix (create_input rid root) rid (S (S (S (S c))))
                (append_event rid first (<[rid := []]> es)) g rid) as [mid Hmid].
  rewrite append_event_self, lookup_insert_eq in Hmid. simpl in Hmid.
  destruct (graph_fault (create_input rid root) rid g) as [e|];
    cbn [snd STORE events]; rewrite append_event_self, Hmid;
    eexists mid, _; (split; [reflexivity|]); (split; [reflexivity|]);
    [reflexivity|].
  split; [reflexivity|]. apply redact_approval_gate.
Qed.

(** X15.  [create_run] draws two identifiers, the first for the run and
    its thread, the second for its root span, stamps the run with the
    first clock reading, and leaves every other run of the registry as
    it was. *)
Theorem create_run_registers_one_run req w :
  let rid := uuid4 (ids_drawn w) in
  let res := create_run req w in
  ids_drawn res.2 = S (S (ids_drawn w))
  ∧ (∃ r', runs (STORE res.2) !! rid = Some r'
           ∧ runId r' = rid ∧ threadId r' = rid
           ∧ rootSpanId r' = uuid4 (S (ids_drawn w))
           ∧ createdAtMs r' = time_ms (clock_reads w))
  ∧ ∀ k, k ≠ rid → runs (STORE res.2) !! k = runs (STORE w) !! k.
Proof.
  destruct w as [[rs es] c i g]. cbn [STORE runs ids_drawn clock_reads].
  cbn zeta. rewrite create_run_spec. cbn zeta.
  destruct (graph_fault _ _ g); cbn [snd STORE runs ids_drawn];
    (split; [done|]); (split; [rewrite lookup_insert_eq; by eexists|]);
    intros k Hk; by rewrite lookup_insert_ne.
Qed.

(** X16.  A run can be resumed once: after [resume_run] on a run in
    [WAITING_APPROVAL], whether the graph returned or raised, another
    [resume_run] and a [cancel_run] on the run both raise HTTP 409 and
    change nothing. *)
Theorem resume_run_only_once rid req req' w r :
  runs (STORE w) !! rid = Some r →
  status r = WAITING_APPROVAL →
  let first := resume_run rid req w in
  (∃ detail, resume_run rid req' first.2 = (Raise (HTTPException 409 detail), first.2))
  ∧ (∃ detail, cancel_run rid first.2 = (Raise (HTTPException 409 detail), first.2)).
Proof.
  destruct w as [[rs es] c i g]. cbn [STORE runs]. intros Hr Hst. cbn zeta.
  rewrite resume_run_spec, Hr.
  rewrite bool_decide_eq_false_2 by (by intros []). cbn zeta.
  destruct (graph_fault _ _ g); cbn [snd];
    rewrite resume_run_spec, cancel_run_spec, lookup_store_run;
    cbn [status with_updatedAtMs with_error with_interrupt with_status].
  - rewrite (bool_decide_eq_true_2 (FAILED ≠ WAITING_APPROVAL)) by done.
    rewrite (bool_decide_eq_true_2 (FAILED = COMPLETED ∨ FAILED = FAILED))
      by (by right).
    split; by eexists.
  - rewrite (bool_decide_eq_true_2 (COMPLETED ≠ WAITING_APPROVAL)) by done.
    rewrite (bool_decide_eq_true_2 (COMPLETED = COMPLETED ∨ COMPLETED = FAILED))
      by (by left).
    split; by eexists.
Qed.

(** X17.  [cancel_run] on a run that is not in a terminal state changes
    two attributes of the run, the status and the update time stamp; the
    interrupt descriptor, the error and the creation time stay as they
    were.  It reads the clock twice, draws no identifier and does not
    call the graph. *)
Theorem cancel_run_effect rid w r :
  runs (STORE w) !! rid = Some r →
  status r ∈ [PENDING; RUNNING; WAITING_APPROVAL] →
  let res := cancel_run rid w in
  res.1 = Ok {| cancel_success := true |}
  ∧ runs (STORE res.2) !! rid
    = Some (with_updatedAtMs (time_ms (clock_reads w)) (with_status CANCELLED r))
  ∧ clock_reads res.2 = S (S (clock_reads w))
  ∧ ids_drawn res.2 = ids_drawn w
  ∧ GRAPH res.2 = GRAPH w.
Proof.
  destruct w as [[rs es] c i g]. cbn [STORE runs clock_reads ids_drawn GRAPH].
  intros Hr Hst. cbn zeta. rewrite cancel_run_spec, Hr.
  assert (bool_decide (status r = COMPLETED ∨ status r = FAILED) = false
          ∧ bool_decide (status r = CANCELLED) = false) as [-> ->].
  { rewrite !elem_of_cons, elem_of_nil in Hst.
    destruct Hst as [->|[->|[->|[]]]]; by split. }
  cbn zeta. cbn [fst snd STORE runs clock_reads ids_drawn GRAPH].
  by rewrite lookup_store_run.
Qed.

(** X18.  When the graph raises during [resume_run], the run keeps its
    interrupt descriptor: the record of the failed run is the old one
    with status [FAILED], the message as error and a new update time
    stamp, nothing else. *)
Theorem resume_run_fault_keeps_interrupt rid req w r e :
  runs (STORE w) !! rid = Some r →
  status r = WAITING_APPROVAL →
  graph_fault (resume_input req rid (rootSpanId r)) (threadId r) (GRAPH w) = Some e →
  ∃ t, runs (STORE (resume_run rid req w).2) !! rid
       = Some (with_updatedAtMs t
                 (with_error (Some (exn_str e)) (with_status FAILED r))).
Proof.
  destruct w as [[rs es] c i g]. cbn [STORE runs GRAPH]. intros Hr Hst Hf.
  rewrite resume_run_spec, Hr.
  rewrite bool_decide_eq_false_2 by (by intros []). cbn zeta. rewrite Hf.
  cbn [snd STORE runs]. rewrite lookup_store_run. by eexists.
Qed.

(** X19.  The message of an exception of the graph reaches the log
    redacted but the run record as it is: after a [create_run] during
    which the graph raised, [get_run] reports the message unredacted as
    the error of the run, while the payload of the [ERROR] event holds
    its redaction. *)
Theorem create_run_error_is_not_redacted req w e :
  let rid := uuid4 (ids_drawn w) in
  let root := uuid4 (S (ids_drawn w)) in
  graph_fault (create_input rid root) rid (GRAPH w) = Some e →
  let created := create_run req w in
  (∃ info, get_run rid created.2 = (Ok info, created.2)
           ∧ info_status info = FAILED
           ∧ info_error info = Some (exn_str e))
  ∧ ∃ ev, last (events_of rid created.2) = Some ev
          ∧ type ev = ERROR
          ∧ payload ev = [(codes "error", VStr (redact_str (exn_str e)))].
Proof.
  destruct w as [[rs es] c i g]. cbn [STORE runs events ids_drawn GRAPH].
  cbn zeta. intros Hf. unfold events_of. rewrite create_run_spec. cbn zeta.
  rewrite Hf. cbn [snd STORE events].
  rewrite get_run_spec, lookup_insert_eq. split; [by eexists|].
  eexists. by rewrite last_append_event.
Qed.

End RouteProperties.

Lemma unknown_run_is_404_witness :
  get_run (H:=poc_host None) (codes "nobody") (poc_world None)
  = (Raise (HTTPException 404 (codes "run not found")), poc_world None)
  ∧ cancel_run (H:=poc_host None) (codes "nobody") (poc_world None)
    = (Raise (HTTPException 404 (codes "run not found")), poc_world None).
Proof.
  destruct (unknown_run_is_404 (H:=poc_host None) (codes "nobody")
              {| approved := true; notes := None |} (poc_world None))
    as (H1 & _ & _ & H4); [apply lookup_empty|].
  by split.
Defined.

Lemma reads_report_the_store_witness :
  runs (STORE (sample_world None FAILED)) !! codes "r1" = Some (sample_run FAILED)
  ∧ get_events (H:=poc_host None) (codes "r1") (sample_world None FAILED)
    = (Ok [], sample_world None FAILED).
Proof.
  split; [apply sample_world_run|].
  destruct (reads_report_the_store (H:=poc_host None) (codes "r1")
              (sample_world None FAILED) (sample_run FAILED)
              (sample_world_run _ _)) as [_ Hev].
  exact Hev.
Defined.

Lemma resume_run_only_once_witness :
  let w := sample_world None WAITING_APPROVAL in
  let first := resume_run (H:=poc_host None) (codes "r1")
                 {| approved := true; notes := None |} w in
  runs (STORE w) !! codes "r1" = Some (sample_run WAITING_APPROVAL)
  ∧ ∃ detail,
      resume_run (H:=poc_host None) (codes "r1")
        {| approved := false; notes := None |} first.2
      = (Raise (HTTPException 409 detail), first.2).
Proof.
  intros w first. split; [apply sample_world_run|].
  exact (proj1 (resume_run_only_once (H:=poc_host None) (codes "r1")
                  {| approved := true; notes := None |}
                  {| approved := false; notes := None |} w
                  (sample_run WAITING_APPROVAL) (sample_world_run _ _) eq_refl)).
Defined.

Lemma cancel_run_effect_witness :
  let w := sample_world None RUNNING in
  status (sample_run RUNNING) ∈ [PENDING; RUNNING; WAITING_APPROVAL]
  ∧ runs (STORE (cancel_run (H:=poc_host None) (codes "r1") w).2) !! codes "r1"
    = Some (with_updatedAtMs 1700000000000 (with_status CANCELLED (sample_run RUNNING))).
Proof.
  intros w.
  assert (status (sample_run RUNNING) ∈ [PENDING; RUNNING; WAITING_APPROVAL]) as Hst
    by apply list_elem_of_further, list_elem_of_here.
  split; [exact Hst|].
  destruct (cancel_run_effect (H:=poc_host None) (codes "r1") w (sample_run RUNNING)
              (sample_world_run _ _) Hst) as (_ & Hrun & _).
  exact Hrun.
Defined.

Lemma resume_run_fault_keeps_interrupt_witness :
  let w := sample_world (Some (codes "boom")) WAITING_APPROVAL in
  runs (STORE w) !! codes "r1" = Some (sample_run WAITING_APPROVAL)
  ∧ ∃ t, runs (STORE (resume_run (H:=poc_host (Some (codes "boom"))) (codes "r1")
                        {| approved := true; notes := None |} w).2) !! codes "r1"
         = Some (with_updatedAtMs t
                   (with_error (Some (codes "boom"))
                      (with_status FAILED (sample_run WAITING_APPROVAL)))).
Proof.
  intros w. split; [apply sample_world_run|].
  exact (resume_run_fault_keeps_interrupt (H:=poc_host (Some (codes "boom")))
           (codes "r1") {| approved := true; notes := None |} w
           (sample_run WAITING_APPROVAL) (Exception (codes "boom"))
           (sample_world_run _ _) eq_refl eq_refl).
Defined.

Lemma create_run_error_is_not_redacted_witness :
  let host := poc_host (Some (codes "api_key=abc")) in
  let created := create_run (H:=host) {| prompt := None |}
                   (poc_world (Some (codes "api_key=abc"))) in
  (∃ info, (get_run (H:=host) (codes "id-") created.2).1 = Ok info
           ∧ info_error info = Some (codes "api_key=abc"))
  ∧ ∃ ev, last (events_of (codes "id-") created.2) = Some ev
          ∧ payload ev = [(codes "error", VStr (codes "[REDACTED]"))].
Proof.
  intros host created.
  destruct (create_run_error_is_not_redacted (H:=host) {| prompt := None |}
              (poc_world (Some (codes "api_key=abc")))
              (Exception (codes "api_key=abc")) eq_refl)
    as [(info & Hget & _ & Herr) (ev & Hlast & _ & Hpl)].
  split.
  - exists info. split; [|exact Herr].
    exact (f_equal fst Hget).
  - exists ev. split; [exact Hlast|].
    exact (eq_trans Hpl (eq_refl : _ = [(codes "error", VStr (codes "[REDACTED]"))])).
Defined.

(** ** Invariants of request sequences *)

(** Every run is stored under its own identifier and has it as its
    thread identifier ([Thread ID = Run ID]). *)
Definition registry_wellformed `{Host} (w : World) : Prop :=
  ∀ k r, runs (STORE w) !! k = Some r → runId r = k ∧ threadId r = k.

Section SequenceProperties.
Context `{Host}.

Lemma wellformed_insert (rs : gmap str RunState) rid r' :
  (∀ k r, rs !! k = Some r → runId r = k ∧ threadId r = k) →
  runId r' = rid → threadId r' = rid →
  ∀ k r, store_run rid r' rs !! k = Some r → runId r = k ∧ threadId r = k.
Proof.
  intros Hwf Hid Hth k r. unfold store_run. rewrite Hid, insert_insert_eq.
  destruct (decide (rid = k)) as [->|Hne].
  - rewrite lookup_insert_eq. by intros [= <-].
  - rewrite lookup_insert_ne by done. apply Hwf.
Qed.

Lemma step_wellformed o w : registry_wellformed w → registry_wellformed (step o w).
Proof.
  destruct w as [[rs es] c i g]. unfold registry_wellformed.
  cbn [STORE runs]. intros Hwf.
  destruct o as [req | rid req | rid | rid | rid]; cbn [step].
  - rewrite create_run_spec. cbn zeta.
    destruct (graph_fault _ _ g); cbn [snd STORE runs]; intros k r;
      (destruct (decide (uuid4 i = k)) as [<-|Hne];
       [rewrite lookup_insert_eq; by intros [= <-]
       |rewrite lookup_insert_ne by done; apply Hwf]).
  - rewrite resume_run_spec. destruct (rs !! rid) as [r|] eqn:Hr; [|done].
    destruct (bool_decide (status r ≠ WAITING_APPROVAL)); [done|]. cbn zeta.
    destruct (Hwf _ _ Hr) as [Hid Hth].
    destruct (graph_fault _ _ g); cbn [snd STORE runs];
      by apply wellformed_insert.
  - rewrite cancel_run_spec. destruct (rs !! rid) as [r|] eqn:Hr; [|done].
    destruct (bool_decide (status r = COMPLETED ∨ status r = FAILED)); [done|].
    destruct (bool_decide (status r = CANCELLED)); [done|]. cbn zeta.
    destruct (Hwf _ _ Hr) as [Hid Hth]. cbn [snd STORE runs].
    by apply wellformed_insert.
  - by rewrite get_run_world.
  - by rewrite get_events_world.
Qed.

(** X20.  Whatever requests are served, every run stays stored under
    its own identifier and keeps it as its thread identifier. *)
Theorem registry_stays_wellformed os w :
  registry_wellformed w → registry_wellformed (steps os w).
Proof.
  revert w. induction os as [|o os IH]; intros w Hw; [done|].
  apply IH. by apply step_wellformed.
Qed.

Lemma step_ids_drawn o w : ids_drawn w ≤ ids_drawn (step o w).
Proof.
  destruct w as [[rs es] c i g].
  destruct o as [req | rid req | rid | rid | rid]; cbn [step].
  - rewrite create_run_spec. cbn zeta.
    destruct (graph_fault _ _ g); cbn [snd ids_drawn]; lia.
  - rewrite resume_run_spec. destruct (rs !! rid) as [r|]; [|done].
    destruct (bool_decide (status r ≠ WAITING_APPROVAL)); [done|]. cbn zeta.
    by destruct (graph_fault _ _ g).
  - rewrite cancel_run_spec. destruct (rs !! rid) as [r|]; [|done].
    destruct (bool_decide (status r = COMPLETED ∨ status r = FAILED)); [done|].
    by destruct (bool_decide (status r = CANCELLED)).
  - by rewrite get_run_world.
  - by rewrite get_events_world.
Qed.

Lemma step_log_prefix o w rid :
  uuid4 (ids_drawn w) ≠ rid →
  events_of rid w `prefix_of` events_of rid (step o w).
Proof.
  destruct w as [[rs es] c i g]. unfold events_of.
  cbn [STORE events ids_drawn]. intros Hfresh.
  destruct o as [req | rid' req | rid' | rid' | rid']; cbn [step].
  - rewrite create_run_spec. cbn zeta.
    destruct (graph_fault _ _ g); cbn [snd STORE events];
      (etrans; [|apply append_event_prefix]);
      (etrans; [|apply graph_log_prefix]);
      (etrans; [|apply append_event_prefix]);
      by rewrite lookup_insert_ne.
  - rewrite resume_run_spec. destruct (rs !! rid') as [r|]; [|done].
    destruct (bool_decide (status r ≠ WAITING_APPROVAL)); [done|]. cbn zeta.
    destruct (graph_fault _ _ g); cbn [snd STORE events].
    + etrans; [|apply append_event_prefix].
      etrans; [|apply graph_log_prefix]. apply append_event_prefix.
    + etrans; [|apply graph_log_prefix]. apply append_event_prefix.
  - rewrite cancel_run_spec. destruct (rs !! rid') as [r|]; [|done].
    destruct (bool_decide (status r = COMPLETED ∨ status r = FAILED)); [done|].
    destruct (bool_decide (status r = CANCELLED)); [done|].
    cbn zeta. cbn [snd STORE events]. apply append_event_prefix.
  - by rewrite get_run_world.
  - by rewrite get_events_world.
Qed.

(** X21.  The log of a run is append-only: whatever requests are
    served, on this run or on others, the events the run had are still
    there afterwards, unchanged and in the same order, in front of the
    new ones, as long as the identifier of the run is not drawn again
    for a new run. *)
Theorem log_is_append_only os w rid :
  (∀ k, ids_drawn w ≤ k → uuid4 k ≠ rid) →
  events_of rid w `prefix_of` events_of rid (steps os w).
Proof.
  revert w. induction os as [|o os IH]; intros w Hfresh; [done|].
  cbn [steps fold_left]. etrans; [apply (step_log_prefix o)|apply IH].
  - by apply Hfresh.
  - intros k Hk. apply Hfresh. pose proof (step_ids_drawn o w). lia.
Qed.

End SequenceProperties.

Lemma registry_stays_wellformed_witness :
  registry_wellformed (poc_world None)
  ∧ registry_wellformed
      (steps (H:=poc_host None)
         [Create {| prompt := None |};
          Resume (codes "id-") {| approved := true; notes := None |}]
         (poc_world None)).
Proof.
  assert (registry_wellformed (poc_world None)) as Hwf.
  { intros k r Hr. cbn [poc_world STORE runs empty_store] in Hr.
    by rewrite lookup_empty in Hr. }
  split; [exact Hwf|].
  exact (registry_stays_wellformed (H:=poc_host None) _ _ Hwf).
Defined.

Lemma log_is_append_only_witness :
  events_of (codes "r1") (sample_world None WAITING_APPROVAL)
  `prefix_of`
  events_of (codes "r1")
    (steps (H:=poc_host None)
       [Create {| prompt := None |};
        Resume (codes "r1") {| approved := true; notes := None |};
        Cancel (codes "r1")]
       (sample_world None WAITING_APPROVAL)).
Proof.
  apply (log_is_append_only (H:=poc_host None)).
  intros k _. apply poc_ids_fresh.
Defined.

(** ** Time stamps *)

(** The events carry readings of the clock that were taken before the
    [c]-th, each later than the one before. *)
Definition stamped `{Host} (c : nat) (evs : list AdapterEvent) : Prop :=
  ∃ ks, map ts evs = map time_ms ks
        ∧ StronglySorted lt ks ∧ Forall (λ k, k < c) ks.

(** Every event sequence of the log is stamped by readings taken before
    the next one. *)
Definition log_stamped `{Host} (w : World) : Prop :=
  ∀ rid, stamped (clock_reads w) (events_of rid w).

Section TimeStamps.
Context `{Host}.

Implicit Types (es : gmap str (list AdapterEvent)) (c : nat).

Definition all_stamped c es : Prop :=
  ∀ rid, stamped c (default [] (es !! rid)).

Lemma stamped_nil c : stamped c [].
Proof. exists []. repeat split; constructor. Qed.

Lemma stamped_mono c c' evs : c ≤ c' → stamped c evs → stamped c' evs.
Proof.
  intros Hc (ks & Hts & Hs & Hlt). exists ks. repeat split; [done..|].
  eapply Forall_impl; [exact Hlt|]. intros k Hk. simpl in *. lia.
Qed.

Lemma sorted_snoc ks c :
  StronglySorted lt ks → Forall (λ k, k < c) ks → StronglySorted lt (ks ++ [c]).
Proof.
  induction 1 as [|k ks Hs IH Hk]; intros Hlt; simpl.
  - repeat constructor.
  - inversion Hlt; subst. constructor; [by apply IH|].
    apply Forall_app. split; [done|]. by repeat constructor.
Qed.

Lemma stamped_snoc c evs ev :
  stamped c evs → ts ev = time_ms c → stamped (S c) (evs ++ [ev]).
Proof.
  intros (ks & Hts & Hs & Hlt) Hev. exists (ks ++ [c]).
  rewrite !map_app, Hts. simpl. rewrite Hev. split; [done|].
  split; [by apply sorted_snoc|].
  apply Forall_app. split.
  - eapply Forall_impl; [exact Hlt|]. intros k Hk. simpl in *. lia.
  - repeat constructor.
Qed.

Lemma all_stamped_mono c c' es : c ≤ c' → all_stamped c es → all_stamped c' es.
Proof. intros Hc Hes rid. by eapply stamped_mono. Qed.

Lemma all_stamped_append c c' es rid ev :
  c ≤ c' → all_stamped c es → ts ev = time_ms c' →
  all_stamped (S c') (append_event rid ev es).
Proof.
  intros Hc Hes Hev rid'. destruct (decide (rid = rid')) as [->|Hne].
  - rewrite append_event_self. apply stamped_snoc; [|done].
    by eapply stamped_mono.
  - rewrite append_event_other by done. eapply stamped_mono; [|apply Hes]. lia.
Qed.

Lemma all_stamped_reset c es rid :
  all_stamped c es → all_stamped c (<[rid := []]> es).
Proof.
  intros Hes rid'. destruct (decide (rid = rid')) as [->|Hne].
  - rewrite lookup_insert_eq. apply stamped_nil.
  - rewrite lookup_insert_ne by done. apply Hes.
Qed.

Lemma all_stamped_emissions ems c es :
  all_stamped c es →
  all_stamped (emissions_log ems c es).1 (emissions_log ems c es).2.
Proof.
  revert c es. induction ems as [|e ems IH]; intros c es Hes;
    cbn [emissions_log]; [done|].
  destruct (as_EventType (VStr (em_type e))).
  - apply IH. by apply (all_stamped_append c c).
  - cbn [fst snd]. eapply all_stamped_mono; [|done]. lia.
Qed.

Lemma all_stamped_graph input thread c es g :
  all_stamped c es →
  all_stamped (graph_log input thread c es g).1 (graph_log input thread c es g).2.
Proof. apply all_stamped_emissions. Qed.

Lemma step_stamped o w : log_stamped w → log_stamped (step o w).
Proof.
  destruct w as [[rs es] c i g]. unfold log_stamped, events_of.
  cbn [STORE events clock_reads]. intros Hes.
  change (all_stamped c es) in Hes.
  destruct o as [req | rid req | rid | rid | rid]; cbn [step].
  - rewrite create_run_spec. cbn zeta.
    destruct (graph_fault _ _ g); cbn [snd STORE events clock_reads];
      (eapply all_stamped_append; [apply Nat.le_succ_diag_r| |done]);
      apply all_stamped_graph;
      (eapply (all_stamped_append c); [| |done]; [lia|]);
      by apply all_stamped_reset.
  - rewrite resume_run_spec. destruct (rs !! rid) as [r|]; [|done].
    destruct (bool_decide (status r ≠ WAITING_APPROVAL)); [done|]. cbn zeta.
    destruct (graph_fault _ _ g); cbn [snd STORE events clock_reads].
    + eapply all_stamped_append; [apply Nat.le_succ_diag_r| |done].
      apply all_stamped_graph. by apply (all_stamped_append c c).
    + eapply all_stamped_mono; [apply Nat.le_succ_diag_r|].
      apply all_stamped_graph. by apply (all_stamped_append c c).
  - rewrite cancel_run_spec. destruct (rs !! rid) as [r|]; [|done].
    destruct (bool_decide (status r = COMPLETED ∨ status r = FAILED)); [done|].
    destruct (bool_decide (status r = CANCELLED)); [done|].
    cbn zeta. cbn [snd STORE events clock_reads].
    by apply (all_stamped_append c (S c)); [lia| |].
  - by rewrite get_run_world.
  - by rewrite get_events_world.
Qed.

Lemma steps_stamped os w : log_stamped w → log_stamped (steps os w).
Proof.
  revert w. induction os as [|o os IH]; intros w Hw; [done|].
  apply IH. by apply step_stamped.
Qed.

Lemma stamped_sorted c evs :
  (∀ a b, a ≤ b → (time_ms a ≤ time_ms b)%Z) →
  stamped c evs → StronglySorted Z.le (map ts evs).
Proof.
  intros Hmono (ks & -> & Hs & _). clear evs.
  induction Hs as [|k ks Hs IH Hk]; simpl; constructor; [done|].
  apply Forall_forall. intros t Ht.
  apply list_elem_of_In, in_map_iff in Ht as (k' & <- & Hk').
  apply list_elem_of_In in Hk'.
  rewrite Forall_forall in Hk. apply Hmono. specialize (Hk _ Hk'). lia.
Qed.

(** X22.  With a clock that never goes back, the time stamps of the
    events of every run are in non-decreasing order along the log, after
    any sequence of requests, starting from a log that is stamped in
    order (the empty log of a fresh store is). *)
Theorem log_time_stamps_sorted os w rid :
  (∀ a b, a ≤ b → (time_ms a ≤ time_ms b)%Z) →
  log_stamped w →
  StronglySorted Z.le (map ts (events_of rid (steps os w))).
Proof.
  intros Hmono Hw. eapply stamped_sorted; [done|].
  by apply steps_stamped.
Qed.

End TimeStamps.

Lemma poc_world_stamped fault : log_stamped (poc_world fault).
Proof.
  intros rid. unfold events_of. cbn [poc_world STORE events empty_store].
  rewrite lookup_empty. exists []. repeat split; constructor.
Defined.

Lemma poc_clock_monotone fault (a b : nat) :
  a ≤ b → (time_ms (Host:=poc_host fault) a ≤ time_ms (Host:=poc_host fault) b)%Z.
Proof. intros Hab. cbn [time_ms poc_host]. lia. Defined.

Lemma log_time_stamps_sorted_witness :
  log_stamped (poc_world None)
  ∧ StronglySorted Z.le
      (map ts
         (events_of (codes "id-")
            (steps (H:=poc_host None)
               [Create {| prompt := None |};
                Resume (codes "id-") {| approved := true; notes := None |}]
               (poc_world None)))).
Proof.
  split; [apply poc_world_stamped|].
  apply (log_time_stamps_sorted (H:=poc_host None)).
  - apply poc_clock_monotone.
  - apply poc_world_stamped.
Defined.

(** ** [app/langgraph_poc.py] *)

